(** * logical-config: a shallow embedding of [src/logical-config.js]

    The development models the JavaScript values the resolver walks over
    (primitives and heap-allocated arrays, objects and functions), the
    built-ins the source relies on ([String.prototype.split], [slice],
    [RegExp.prototype.test], [JSON.parse]), and then the functions of the
    source file one by one, under their own names. *)

From Stdlib Require Import String Ascii List ZArith QArith Lia Bool DecimalString.
From stdpp Require Import base list.
Import ListNotations.

Local Open Scope string_scope.
Local Open Scope list_scope.

(** ** Strings

    A JavaScript string is modelled by a Rocq [string]; the model is exact
    for ASCII text (one character per UTF-16 code unit). *)

Module Str.

(** [s.split(sep)] for a one-character separator: the result is never
    empty, and [''.split(sep)] is [['']]. *)
Fixpoint split (sep : ascii) (s : string) : list string :=
  match s with
  | EmptyString => [EmptyString]
  | String c r =>
      if Ascii.eqb c sep then EmptyString :: split sep r
      else match split sep r with
           | [] => [String c EmptyString]
           | w :: ws => String c w :: ws
           end
  end.

(** The relative-index rule of [slice]: a negative index counts from the
    end, and both ends are clamped to the string. *)
Definition clamp (len i : Z) : Z :=
  if (i <? 0)%Z then Z.max (len + i) 0 else Z.min i len.

(** [s.slice(b, e)]. *)
Definition slice (s : string) (b e : Z) : string :=
  let len := Z.of_nat (String.length s) in
  let from := clamp len b in
  let to := clamp len e in
  substring (Z.to_nat from) (Z.to_nat (to - from)) s.

(** [xs.join(sep)] on already stringified elements. *)
Fixpoint join (sep : string) (xs : list string) : string :=
  match xs with
  | [] => EmptyString
  | [x] => x
  | x :: rest => x ++ sep ++ join sep rest
  end.

(** Decimal rendering of an array index, as [String(i)] gives it. *)
Definition of_nat (n : nat) : string :=
  NilZero.string_of_uint (Nat.to_uint n).

Definition chars (s : string) : list ascii := list_ascii_of_string s.

Definition newline : ascii := Ascii.ascii_of_nat 10.

Definition dquote : ascii := Ascii.ascii_of_nat 34.

(** The text of a JSON string literal without escapes. *)
Definition quoted (s : string) : string :=
  String dquote (s ++ String dquote EmptyString).

End Str.

(** ** Regular expressions

    The fragment of the regular-expression language that the source uses:
    literals, character classes, sequence, alternation and repetition. An
    anchored [/^...$/.test(s)] holds exactly when [s] is in the language,
    which the derivative-based matcher [Regex.test] decides. *)

Module Regex.

Inductive regex : Type :=
| Void                                   (* matches nothing *)
| Eps                                    (* the empty alternative *)
| OneOf (cs : list ascii)                (* [abc], or a literal *)
| NoneOf (cs : list ascii)               (* [^abc] *)
| Seq (r1 r2 : regex)
| Alt (r1 r2 : regex)
| Star (r : regex).

Definition Lit (c : ascii) : regex := OneOf [c].
Definition Plus (r : regex) : regex := Seq r (Star r).        (* r{1,} *)
Definition Opt (r : regex) : regex := Alt Eps r.              (* (|r)  *)

Fixpoint Word (w : string) : regex :=
  match w with
  | EmptyString => Eps
  | String c r => Seq (Lit c) (Word r)
  end.

Definition mem (c : ascii) (cs : list ascii) : bool :=
  existsb (Ascii.eqb c) cs.

Fixpoint nullable (r : regex) : bool :=
  match r with
  | Void => false
  | Eps => true
  | OneOf _ => false
  | NoneOf _ => false
  | Seq r1 r2 => nullable r1 && nullable r2
  | Alt r1 r2 => nullable r1 || nullable r2
  | Star _ => true
  end.

Fixpoint deriv (c : ascii) (r : regex) : regex :=
  match r with
  | Void => Void
  | Eps => Void
  | OneOf cs => if mem c cs then Eps else Void
  | NoneOf cs => if mem c cs then Void else Eps
  | Seq r1 r2 =>
      if nullable r1
      then Alt (Seq (deriv c r1) r2) (deriv c r2)
      else Seq (deriv c r1) r2
  | Alt r1 r2 => Alt (deriv c r1) (deriv c r2)
  | Star r1 => Seq (deriv c r1) (Star r1)
  end.

Fixpoint run (r : regex) (s : list ascii) : bool :=
  match s with
  | [] => nullable r
  | c :: rest => run (deriv c r) rest
  end.

Definition test (r : regex) (s : string) : bool := run r (Str.chars s).

(** The language of a regular expression, for reasoning. *)
Inductive matches : regex -> list ascii -> Prop :=
| MEps : matches Eps []
| MOneOf c cs : mem c cs = true -> matches (OneOf cs) [c]
| MNoneOf c cs : mem c cs = false -> matches (NoneOf cs) [c]
| MSeq r1 r2 s1 s2 :
    matches r1 s1 -> matches r2 s2 -> matches (Seq r1 r2) (s1 ++ s2)
| MAltL r1 r2 s : matches r1 s -> matches (Alt r1 r2) s
| MAltR r1 r2 s : matches r2 s -> matches (Alt r1 r2) s
| MStarNil r : matches (Star r) []
| MStarCons r s1 s2 :
    matches r s1 -> matches (Star r) s2 -> matches (Star r) (s1 ++ s2).

End Regex.

(** ** JSON.parse

    The built-in decoder, as far as the source observes it: which texts it
    accepts (the grammar of ECMA-404) and the value each denotes. Numbers
    are kept exact, as rationals; the rounding to IEEE doubles is outside
    the model. A text the decoder rejects makes the JavaScript built-in
    raise [SyntaxError]. *)

Module Json.

#[local] Unset Elimination Schemes.

Inductive json : Type :=
| JNull
| JBool (b : bool)
| JNum (q : Q)
| JStr (s : string)
| JArr (xs : list json)
| JObj (ms : list (string * json)).

#[local] Set Elimination Schemes.

(** *** Lexical level *)

Inductive token : Type :=
| TOpenArr | TCloseArr | TOpenObj | TCloseObj | TComma | TColon
| TStr (s : string)
| TWord (w : list ascii).     (* a literal name or a number, unchecked *)

Definition code (c : ascii) : nat := nat_of_ascii c.

Definition between (lo hi : nat) (c : ascii) : bool :=
  (lo <=? code c)%nat && (code c <=? hi)%nat.

Definition is_ws (c : ascii) : bool :=
  Regex.mem c [ascii_of_nat 32; ascii_of_nat 9; ascii_of_nat 10; ascii_of_nat 13].

Definition is_digit (c : ascii) : bool := between 48 57 c.

Definition is_hex (c : ascii) : bool :=
  is_digit c || between 65 70 c || between 97 102 c.

Definition hex_val (c : ascii) : nat :=
  if is_digit c then code c - 48
  else if between 65 70 c then code c - 55
  else code c - 87.

Definition is_wordchar (c : ascii) : bool :=
  is_digit c || between 65 90 c || between 97 122 c
  || Regex.mem c ["+"; "-"; "."]%char.

(** A [\uXXXX] escape denotes one code unit; outside ASCII it is stored
    as its UTF-8 bytes. *)
Definition utf8 (n : nat) : list ascii :=
  if (n <? 128)%nat then [ascii_of_nat n]
  else if (n <? 2048)%nat then
    [ascii_of_nat (192 + n / 64); ascii_of_nat (128 + n mod 64)]
  else
    [ascii_of_nat (224 + n / 4096);
     ascii_of_nat (128 + (n / 64) mod 64);
     ascii_of_nat (128 + n mod 64)].

Inductive mode : Type :=
| MTop
| MWord (acc : list ascii)
| MStr (acc : list ascii)
| MEsc (acc : list ascii)
| MHex (acc : list ascii) (ds : list nat).

Definition punct (c : ascii) : option token :=
  if Ascii.eqb c "[" then Some TOpenArr
  else if Ascii.eqb c "]" then Some TCloseArr
  else if Ascii.eqb c "{" then Some TOpenObj
  else if Ascii.eqb c "}" then Some TCloseObj
  else if Ascii.eqb c "," then Some TComma
  else if Ascii.eqb c ":" then Some TColon
  else None.

Definition unescape (c : ascii) : option ascii :=
  if Regex.mem c [Str.dquote; "\"%char; "/"%char] then Some c
  else if Ascii.eqb c "b" then Some (ascii_of_nat 8)
  else if Ascii.eqb c "f" then Some (ascii_of_nat 12)
  else if Ascii.eqb c "n" then Some (ascii_of_nat 10)
  else if Ascii.eqb c "r" then Some (ascii_of_nat 13)
  else if Ascii.eqb c "t" then Some (ascii_of_nat 9)
  else None.

(** Accumulators hold characters and tokens in reverse. *)
Fixpoint lex (m : mode) (s : list ascii) (out : list token)
  : option (list token) :=
  match s with
  | [] =>
      match m with
      | MTop => Some (rev out)
      | MWord w => Some (rev (TWord (rev w) :: out))
      | _ => None
      end
  | c :: rest =>
      let '(m, out) :=
        match m with
        | MWord w =>
            if is_wordchar c then (m, out) else (MTop, TWord (rev w) :: out)
        | _ => (m, out)
        end in
      match m with
      | MTop =>
          if is_ws c then lex MTop rest out
          else if Ascii.eqb c Str.dquote then lex (MStr []) rest out
          else if is_wordchar c then lex (MWord [c]) rest out
          else match punct c with
               | Some t => lex MTop rest (t :: out)
               | None => None
               end
      | MWord w => lex (MWord (c :: w)) rest out
      | MStr acc =>
          if Ascii.eqb c Str.dquote then
            lex MTop rest (TStr (string_of_list_ascii (rev acc)) :: out)
          else if Ascii.eqb c "\" then lex (MEsc acc) rest out
          else if (code c <? 32)%nat then None
          else lex (MStr (c :: acc)) rest out
      | MEsc acc =>
          if Ascii.eqb c "u" then lex (MHex acc []) rest out
          else match unescape c with
               | Some d => lex (MStr (d :: acc)) rest out
               | None => None
               end
      | MHex acc ds =>
          if is_hex c then
            match ds with
            | [d1; d2; d3] =>
                let n := ((d1 * 16 + d2) * 16 + d3) * 16 + hex_val c in
                lex (MStr (rev (utf8 n) ++ acc)) rest out
            | _ => lex (MHex acc (ds ++ [hex_val c])) rest out
            end
          else None
      end
  end.

(** *** Numbers and literal names *)

Definition digit : Regex.regex :=
  Regex.OneOf ["0"; "1"; "2"; "3"; "4"; "5"; "6"; "7"; "8"; "9"]%char.

Definition digit19 : Regex.regex :=
  Regex.OneOf ["1"; "2"; "3"; "4"; "5"; "6"; "7"; "8"; "9"]%char.

(** The number grammar: an optional minus sign; an integer part that is
    either a lone zero or starts with a non-zero digit; an optional
    fraction; an optional exponent. *)
Definition number_re : Regex.regex :=
  Regex.Seq (Regex.Opt (Regex.Lit "-"))
 (Regex.Seq (Regex.Alt (Regex.Lit "0") (Regex.Seq digit19 (Regex.Star digit)))
 (Regex.Seq (Regex.Opt (Regex.Seq (Regex.Lit ".") (Regex.Plus digit)))
            (Regex.Opt (Regex.Seq (Regex.OneOf ["e"; "E"]%char)
                       (Regex.Seq (Regex.Opt (Regex.OneOf ["+"; "-"]%char))
                                  (Regex.Plus digit)))))).

Fixpoint span (p : ascii -> bool) (s : list ascii)
  : list ascii * list ascii :=
  match s with
  | c :: rest =>
      if p c then let '(a, b) := span p rest in (c :: a, b) else ([], s)
  | [] => ([], [])
  end.

Definition digits_val (ds : list ascii) : Z :=
  fold_left (fun a d => (a * 10 + (Z.of_nat (code d) - 48))%Z) ds 0%Z.

(** The value of a well-formed number: mantissa times a power of ten. *)
Definition number_val (w : list ascii) : Q :=
  let '(neg, w) :=
    match w with
    | c :: r => if Ascii.eqb c "-" then (true, r) else (false, w)
    | [] => (false, w)
    end in
  let '(ipart, w) := span is_digit w in
  let '(fpart, w) :=
    match w with
    | c :: r => if Ascii.eqb c "." then span is_digit r else ([], w)
    | [] => ([], w)
    end in
  let ex :=
    match w with
    | _ :: c :: r =>
        if Ascii.eqb c "-" then (- digits_val r)%Z
        else if Ascii.eqb c "+" then digits_val r
        else digits_val (c :: r)
    | _ => 0%Z
    end in
  let m := digits_val (ipart ++ fpart) in
  let m := if neg then (- m)%Z else m in
  let sc := (ex - Z.of_nat (length fpart))%Z in
  if (0 <=? sc)%Z then inject_Z (m * 10 ^ sc)
  else Qred (Qmake m (Z.to_pos (10 ^ (- sc)))).

Definition classify (w : list ascii) : option json :=
  let s := string_of_list_ascii w in
  if String.eqb s "null" then Some JNull
  else if String.eqb s "true" then Some (JBool true)
  else if String.eqb s "false" then Some (JBool false)
  else if Regex.run number_re w then Some (JNum (number_val w))
  else None.

(** *** Grammar level: a pushdown recogniser over the tokens *)

Inductive frame : Type :=
| FArr (done : list json)
| FObj (done : list (string * json)) (key : option string).

Inductive expect : Type :=
| XValue            (* a value must follow *)
| XValueOrEnd       (* right after '[' *)
| XKeyOrEnd         (* right after '{' *)
| XKey              (* after ',' inside an object *)
| XColon
| XNext             (* after a member or an element *)
| XDone (v : json).

Definition reduce (v : json) (st : list frame)
  : option (expect * list frame) :=
  match st with
  | [] => Some (XDone v, [])
  | FArr d :: st' => Some (XNext, FArr (v :: d) :: st')
  | FObj d (Some k) :: st' => Some (XNext, FObj ((k, v) :: d) None :: st')
  | FObj _ None :: _ => None
  end.

Definition value_start (t : token) (st : list frame)
  : option (expect * list frame) :=
  match t with
  | TOpenArr => Some (XValueOrEnd, FArr [] :: st)
  | TOpenObj => Some (XKeyOrEnd, FObj [] None :: st)
  | TStr s => reduce (JStr s) st
  | TWord w => match classify w with
               | Some v => reduce v st
               | None => None
               end
  | _ => None
  end.

Definition step (t : token) (x : expect) (st : list frame)
  : option (expect * list frame) :=
  match x with
  | XValue => value_start t st
  | XValueOrEnd =>
      match t, st with
      | TCloseArr, FArr d :: st' => reduce (JArr (rev d)) st'
      | _, _ => value_start t st
      end
  | XKeyOrEnd =>
      match t, st with
      | TCloseObj, FObj d _ :: st' => reduce (JObj (rev d)) st'
      | TStr k, FObj d _ :: st' => Some (XColon, FObj d (Some k) :: st')
      | _, _ => None
      end
  | XKey =>
      match t, st with
      | TStr k, FObj d _ :: st' => Some (XColon, FObj d (Some k) :: st')
      | _, _ => None
      end
  | XColon => match t with TColon => Some (XValue, st) | _ => None end
  | XNext =>
      match t, st with
      | TComma, FArr _ :: _ => Some (XValue, st)
      | TCloseArr, FArr d :: st' => reduce (JArr (rev d)) st'
      | TComma, FObj _ _ :: _ => Some (XKey, st)
      | TCloseObj, FObj d _ :: st' => reduce (JObj (rev d)) st'
      | _, _ => None
      end
  | XDone _ => None
  end.

Fixpoint parse_tokens (ts : list token) (x : expect) (st : list frame)
  : option json :=
  match ts with
  | [] => match x with XDone v => Some v | _ => None end
  | t :: rest =>
      match step t x st with
      | Some (x', st') => parse_tokens rest x' st'
      | None => None
      end
  end.

(** [JSON.parse(text)]: [None] stands for the [SyntaxError]. *)
Definition parse (text : string) : option json :=
  match lex MTop (Str.chars text) [] with
  | Some ts => parse_tokens ts XValue []
  | None => None
  end.

End Json.

(** ** JavaScript values and the heap

    Primitives are values; arrays, plain objects and functions live in a
    heap and are denoted by references, so that two references to one
    array see each other's writes. The model holds the own data
    properties of these objects. What a read finds beyond them, through
    the built-in prototypes ([toString], [constructor], ...), is not
    given a value: a read that may reach it has no result in the model
    (see [read] and [Unmodelled]). Objects with another prototype
    (instances of a class, promises) and own properties added to an array
    or a function are not among the objects of the model. *)

Module JS.

Definition loc := nat.

Inductive number : Type :=
| Fin (q : Q)
| NaN.

Inductive value : Type :=
| VUndefined
| VNull
| VBool (b : bool)
| VNum (n : number)
| VStr (s : string)
| VRef (l : loc).

Definition VInt (z : Z) : value := VNum (Fin (inject_Z z)).

(** What the source can observe of a function or class: its identity
    for the host, its [length], whether [prototype] and [arguments] are
    among its own property names, and the [length] of
    [prototype.constructor] when that is truthy. *)
Record callable : Type := Callable {
  fn_id : nat;
  fn_length : nat;
  own_prototype : bool;
  own_arguments : bool;
  ctor_length : option nat
}.

Inductive object : Type :=
| OArray (elems : list value)
| OObject (props : list (string * value))
| OFunction (f : callable).

Abbreviation heap := (list object).

Inductive jstype : Type :=
| TyUndefined | TyObject | TyBoolean | TyNumber | TyString | TyFunction.

Definition jstype_eqb (a b : jstype) : bool :=
  match a, b with
  | TyUndefined, TyUndefined | TyObject, TyObject | TyBoolean, TyBoolean
  | TyNumber, TyNumber | TyString, TyString | TyFunction, TyFunction => true
  | _, _ => false
  end.

(** [typeof v] *)
Definition typeof (h : heap) (v : value) : jstype :=
  match v with
  | VUndefined => TyUndefined
  | VNull => TyObject
  | VBool _ => TyBoolean
  | VNum _ => TyNumber
  | VStr _ => TyString
  | VRef l => match h !! l with
              | Some (OFunction _) => TyFunction
              | _ => TyObject
              end
  end.

(** ToBoolean, as [&&], [||], [!] and [if] apply it. *)
Definition truthy (v : value) : bool :=
  match v with
  | VUndefined | VNull => false
  | VBool b => b
  | VNum (Fin q) => negb (Qeq_bool q 0)
  | VNum NaN => false
  | VStr s => negb (String.eqb s EmptyString)
  | VRef _ => true
  end.

(** [a || b] on values. *)
Definition or_else (a b : value) : value := if truthy a then a else b.

Definition is_undefined (v : value) : bool :=
  match v with VUndefined => true | _ => false end.

(** [v == undefined] *)
Definition loosely_undefined (v : value) : bool :=
  match v with VUndefined | VNull => true | _ => false end.

(** [Array.isArray(v)] *)
Definition isArray (h : heap) (v : value) : bool :=
  match v with
  | VRef l => match h !! l with Some (OArray _) => true | _ => false end
  | _ => false
  end.

(** *** Properties *)

Fixpoint assoc (k : string) (ps : list (string * value)) : option value :=
  match ps with
  | [] => None
  | (k', v) :: rest => if String.eqb k k' then Some v else assoc k rest
  end.

(** [o[k] = v] on the own properties of a plain object: an existing key
    keeps its place, a new one goes last. *)
Fixpoint set_prop (k : string) (v : value) (ps : list (string * value))
  : list (string * value) :=
  match ps with
  | [] => [(k, v)]
  | (k', v') :: rest =>
      if String.eqb k k' then (k, v) :: rest
      else (k', v') :: set_prop k v rest
  end.

(** A key that is the canonical spelling of an array index. *)
Definition index_of_key (k : string) : option nat :=
  match NilZero.uint_of_string k with
  | Some u =>
      let n := Nat.of_uint u in
      if String.eqb (Str.of_nat n) k then Some n else None
  | None => None
  end.

Definition len_value (n : nat) : value := VInt (Z.of_nat n).

Definition char_at (s : string) (i : nat) : value :=
  match String.get i s with
  | Some c => VStr (String c EmptyString)
  | None => VUndefined
  end.

(** [v.k] for one of the keys the source spells out ([path], [call],
    [parameters], [supportsNested], [length], and the [then] that [await]
    looks for), on a receiver that is not [null] or [undefined]: the own
    property, [undefined] without one. No built-in prototype of a string,
    an array or a plain object holds one of these keys, and the source
    reads them from such receivers only, so nothing is inherited here. Of
    a function only [length] is looked up. *)
Definition get (h : heap) (v : value) (k : string) : value :=
  match v with
  | VStr s =>
      if String.eqb k "length" then len_value (String.length s)
      else match index_of_key k with
           | Some i => char_at s i
           | None => VUndefined
           end
  | VRef l =>
      match h !! l with
      | Some (OArray elems) =>
          if String.eqb k "length" then len_value (length elems)
          else match index_of_key k with
               | Some i => default VUndefined (elems !! i)
               | None => VUndefined
               end
      | Some (OObject props) => default VUndefined (assoc k props)
      | Some (OFunction f) =>
          if String.eqb k "length" then len_value (fn_length f)
          else VUndefined
      | None => VUndefined
      end
  | _ => VUndefined
  end.

(** The own property [k] of [v] as far as the model holds it: the
    entries of a plain object, the elements and the [length] of an array,
    the characters and the [length] of a string, the [length] of a
    function. *)
Definition own (h : heap) (v : value) (k : string) : option value :=
  match v with
  | VStr s =>
      if String.eqb k "length" then Some (len_value (String.length s))
      else match index_of_key k with
           | Some i =>
               match String.get i s with
               | Some c => Some (VStr (String c EmptyString))
               | None => None
               end
           | None => None
           end
  | VRef l =>
      match h !! l with
      | Some (OArray elems) =>
          if String.eqb k "length" then Some (len_value (length elems))
          else match index_of_key k with
               | Some i => elems !! i
               | None => None
               end
      | Some (OObject props) => assoc k props
      | Some (OFunction f) =>
          if String.eqb k "length" then Some (len_value (fn_length f))
          else None
      | None => None
      end
  | _ => None
  end.

(** The property names of [Object.prototype], which every plain object
    inherits. *)
Definition object_prototype_names : list string :=
  ["constructor"; "__defineGetter__"; "__defineSetter__"; "hasOwnProperty";
   "__lookupGetter__"; "__lookupSetter__"; "isPrototypeOf";
   "propertyIsEnumerable"; "toString"; "valueOf"; "__proto__";
   "toLocaleString"].

Definition is_index (k : string) : bool :=
  match index_of_key k with Some _ => true | None => false end.

(** Whether a key that [v] does not own may be found further up: on
    [Object.prototype] for a plain object; for an array and a string any
    key but an index, since their prototypes hold many names and no
    index; any key for a number, a boolean and a function, whose other
    own properties ([name], [prototype], ...) the model does not hold
    either. *)
Definition may_inherit (h : heap) (v : value) (k : string) : bool :=
  match v with
  | VStr _ => negb (is_index k)
  | VRef l =>
      match h !! l with
      | Some (OObject _) =>
          existsb (String.eqb k) object_prototype_names
      | Some (OArray _) => negb (is_index k)
      | _ => true
      end
  | _ => true
  end.

(** [v[k]] for an arbitrary key, on a receiver that is not [null] or
    [undefined]: the own property when there is one; [undefined] when
    there is none and none can be inherited; and no result ([None]) when
    the key may be found on a prototype, whose properties are built-in
    functions and accessors that the model does not hold. *)
Definition read (h : heap) (v : value) (k : string) : option value :=
  match own h v k with
  | Some x => Some x
  | None => if may_inherit h v k then None else Some VUndefined
  end.

Definition indices (n : nat) : list string := map Str.of_nat (seq 0 n).

(** [Object.getOwnPropertyNames(v)] *)
Definition getOwnPropertyNames (h : heap) (v : value) : list string :=
  match v with
  | VStr s => indices (String.length s) ++ ["length"]
  | VRef l =>
      match h !! l with
      | Some (OArray elems) => indices (length elems) ++ ["length"]
      | Some (OObject props) => map fst props
      | Some (OFunction f) =>
          ["length"; "name"]
          ++ (if own_arguments f then ["arguments"; "caller"] else [])
          ++ (if own_prototype f then ["prototype"] else [])
      | None => []
      end
  | _ => []
  end.

Definition includes (x : string) (xs : list string) : bool :=
  existsb (String.eqb x) xs.

(** The own enumerable string-keyed properties, in order: what
    [Object.entries(v)] and the spread [{...v}] enumerate. [None] is the
    [TypeError] that [Object.entries] raises on [null] and [undefined]
    (the spread of those is empty instead). *)
Definition entries (h : heap) (v : value) : option (list (string * value)) :=
  match v with
  | VUndefined | VNull => None
  | VStr s =>
      Some (map (fun i => (Str.of_nat i, char_at s i)) (seq 0 (String.length s)))
  | VRef l =>
      match h !! l with
      | Some (OArray elems) =>
          Some (imap (fun i e => (Str.of_nat i, e)) elems)
      | Some (OObject props) => Some props
      | _ => Some []
      end
  | _ => Some []
  end.

(** [Object.fromEntries(es)] *)
Definition fromEntries (es : list (string * value)) : list (string * value) :=
  fold_left (fun ps e => set_prop (fst e) (snd e) ps) es [].

(** The elements of an iterable, as the argument spread [...v] lists
    them; [None] is the [TypeError] for a value that is not iterable. *)
Definition iterate (h : heap) (v : value) : option (list value) :=
  match v with
  | VStr s => Some (map (char_at s) (seq 0 (String.length s)))
  | VRef l => match h !! l with
              | Some (OArray elems) => Some elems
              | _ => None
              end
  | _ => None
  end.

(** [a[i] = v]: a write past the end leaves holes, which read as
    [undefined]. *)
Definition array_set (elems : list value) (i : nat) (v : value) : list value :=
  if (i <? length elems)%nat then <[i := v]> elems
  else elems ++ replicate (i - length elems) VUndefined ++ [v].

(** *** Computations: a heap is threaded, an exception aborts *)

Inductive error : Type :=
| NotAccessible (subject : value)
    (* Referenced path '...' is not accessble. *)
| NotCallable (subject : value)
    (* Referencing '...' with 'call' enabled, but referenced path is
       not callable. *)
| WrongArity (subject : value) (provided : value) (required : value)
    (* Referencing '...' but an invalid number of parameters was passed
       to it. *)
| SyntaxError                    (* JSON.parse *)
| TypeError                      (* raised by the language *)
| HostError (payload : value).   (* raised by an invoked function *)

Inductive outcome (A : Type) : Type :=
| Ok (a : A)
| Throw (e : error)
| OutOfFuel                        (* the fuel of the model ran out *)
| Unmodelled.                      (* a read went up a built-in prototype *)

Arguments Ok {A} a.
Arguments Throw {A} e.
Arguments OutOfFuel {A}.
Arguments Unmodelled {A}.

Definition M (A : Type) : Type := heap -> outcome (A * heap).

Definition ret {A} (a : A) : M A := fun h => Ok (a, h).

Definition bind {A B} (m : M A) (k : A -> M B) : M B :=
  fun h => match m h with
           | Ok (a, h') => k a h'
           | Throw e => Throw e
           | OutOfFuel => OutOfFuel
           | Unmodelled => Unmodelled
           end.

Definition throw {A} (e : error) : M A := fun _ => Throw e.

Definition out_of_fuel {A} : M A := fun _ => OutOfFuel.

(** A new object; its reference is the next free location. *)
Definition alloc (o : object) : M value :=
  fun h => Ok (VRef (length h), h ++ [o]).

(** [o.k = v] for a reference to a plain object. *)
Definition store_prop (o : value) (k : string) (v : value) : M unit :=
  fun h =>
    match o with
    | VRef l =>
        match h !! l with
        | Some (OObject props) =>
            Ok (tt, <[l := OObject (set_prop k v props)]> h)
        | _ => Ok (tt, h)
        end
    | _ => Ok (tt, h)
    end.

(** [a[i] = v] for a reference to an array. *)
Definition store_elem (a : loc) (i : nat) (v : value) : M unit :=
  fun h =>
    match h !! a with
    | Some (OArray elems) => Ok (tt, <[a := OArray (array_set elems i v)]> h)
    | _ => Ok (tt, h)
    end.

(** The functions and classes of the data map are the caller's code,
    and so is the [then] method of a thenable. [invoke f args] is what
    awaiting the accessor [async () => await f(...args)] gives,
    [construct f args] what awaiting [async () => new f(...args)] gives,
    and [adopt f v] what awaiting [v] gives when [v.then] is the function
    [f]: the value the promise is fulfilled with, its rejection, or
    nothing when it never settles. A fulfilment value is never itself a
    thenable, since a promise adopts one instead. *)
Record Host : Type := {
  invoke : callable -> list value -> M value;
  construct : callable -> list value -> M value;
  adopt : callable -> value -> M value
}.

(** The value a decoded JSON text denotes, freshly allocated. *)
Fixpoint reify (j : Json.json) (h : heap) : value * heap :=
  match j with
  | Json.JNull => (VNull, h)
  | Json.JBool b => (VBool b, h)
  | Json.JNum q => (VNum (Fin q), h)
  | Json.JStr s => (VStr s, h)
  | Json.JArr xs =>
      let '(vs, h1) :=
        (fix elements (xs : list Json.json) (h : heap) : list value * heap :=
           match xs with
           | [] => ([], h)
           | x :: rest =>
               let '(v, h1) := reify x h in
               let '(vs, h2) := elements rest h1 in
               (v :: vs, h2)
           end) xs h in
      (VRef (length h1), h1 ++ [OArray vs])
  | Json.JObj ms =>
      let '(ps, h1) :=
        (fix members (ms : list (string * Json.json)) (h : heap)
           : list (string * value) * heap :=
           match ms with
           | [] => ([], h)
           | (k, x) :: rest =>
               let '(v, h1) := reify x h in
               let '(ps, h2) := members rest h1 in
               ((k, v) :: ps, h2)
           end) ms h in
      (VRef (length h1), h1 ++ [OObject (fromEntries ps)])
  end.

(** [JSON.parse(text)] *)
Definition JSON_parse (text : string) : M value :=
  fun h => match Json.parse text with
           | Some j => Ok (reify j h)
           | None => Throw SyntaxError
           end.

End JS.

Import JS.

Notation "'let*' x := m 'in' k" := (JS.bind m (fun x => k))
  (at level 10, x name, m at level 100, k at level 200).

(** ** The source file, function by function *)

(** [const isCallable = item => typeof item === 'function';] *)
Definition isCallable (h : heap) (item : value) : bool :=
  jstype_eqb (typeof h item) TyFunction.

(** [isFunction]: no own [prototype], or an own [arguments]. *)
Definition isFunction (h : heap) (item : value) : bool :=
  let propertyNames := getOwnPropertyNames h item in
  negb (includes "prototype" propertyNames)
  || includes "arguments" propertyNames.

(** [tryResolveDotPath]: a left fold of the path segments over the data,
    which stops descending at the first falsy intermediate value. Each
    step [a[b]] is a [read]; the fold has no result once a step has
    none. *)
Definition tryResolveDotPath (h : heap) (dotPath obj : value) : option value :=
  match dotPath with
  | VStr s =>
      fold_left (fun acc b =>
                   match acc with
                   | Some a => if truthy a then read h a b else Some VUndefined
                   | None => None
                   end)
                (Str.split "." s) (Some obj)
  | _ => Some VUndefined
  end.

(** The regular expression of [isShortHand]: an opening brace, a path of
    one or more characters other than a semicolon and a newline, then an
    optional parameters field (nothing, a lone semicolon, or a semicolon
    and a bracketed run without newline), then an optional call field
    (nothing, a lone semicolon, or a semicolon and true or false), and
    the closing brace. *)
Definition shorthand_re : Regex.regex :=
  Regex.Seq (Regex.Lit "{")
 (Regex.Seq (Regex.Plus (Regex.NoneOf [";"%char; Str.newline]))
 (Regex.Seq (Regex.Alt Regex.Eps
            (Regex.Alt (Regex.Lit ";")
                       (Regex.Seq (Regex.Lit ";")
                       (Regex.Seq (Regex.Lit "[")
                       (Regex.Seq (Regex.Star (Regex.NoneOf [Str.newline]))
                                  (Regex.Lit "]"))))))
 (Regex.Seq (Regex.Alt Regex.Eps
            (Regex.Alt (Regex.Lit ";")
                       (Regex.Seq (Regex.Lit ";")
                                  (Regex.Alt (Regex.Word "true")
                                             (Regex.Word "false")))))
            (Regex.Lit "}")))).

Definition isShortHand (obj : value) : bool :=
  match obj with
  | VStr s => Regex.test shorthand_re s
  | _ => false
  end.

Definition isValidPathObject (h : heap) (obj : value) : bool :=
  truthy obj
  && truthy (get h obj "path")
  && jstype_eqb (typeof h (get h obj "path")) TyString
  && (jstype_eqb (typeof h (get h obj "call")) TyBoolean
      || loosely_undefined (get h obj "call"))
  && ((jstype_eqb (typeof h (get h obj "parameters")) TyObject
       && isArray h (get h obj "parameters"))
      || is_undefined (get h obj "parameters")).

(** A missing position of a destructured array reads as [undefined]. *)
Definition elem_value (xs : list string) (i : nat) : value :=
  match xs !! i with
  | Some s => VStr s
  | None => VUndefined
  end.

(** [x.length > 0] where the length is a number. *)
Definition is_positive (v : value) : bool :=
  match v with
  | VNum (Fin q) => negb (Qle_bool q 0)
  | _ => false
  end.

Definition parsePathObject (obj : value) : M value :=
  fun h =>
    if isValidPathObject h obj then
      (* result = { ...obj, supportsNested: true } *)
      alloc (OObject (set_prop "supportsNested" (VBool true)
                               (default [] (entries h obj)))) h
    else if isShortHand obj then
      match obj with
      | VStr s =>
          let elems := Str.split ";" (Str.slice s 1 (-1)) in
          let path := elem_value elems 0 in
          let params := elem_value elems 1 in
          let call := elem_value elems 2 in
          (let* parameters :=
             match params with
             | VStr text =>
                 if truthy params && is_positive (get h params "length")
                 then JSON_parse text
                 else ret VUndefined
             | _ => ret VUndefined      (* a missing field is falsy *)
             end in
           alloc (OObject
                    [("path", path);
                     ("parameters", parameters);
                     ("call",
                      match call with
                      | VStr c =>
                          if includes c ["true"; "false"]
                          then VBool (String.eqb c "true")
                          else VUndefined
                      | _ => VUndefined
                      end)])) h
      | _ => alloc (OObject []) h
      end
    else
      (* return result || {} *)
      alloc (OObject []) h.

(** [const getDef = (obj, def = true) => obj === undefined ? def : obj;] *)
Definition getDef (obj def : value) : value :=
  if is_undefined obj then def else obj.

(** [a === b] *)
Definition strict_eq (a b : value) : bool :=
  match a, b with
  | VUndefined, VUndefined => true
  | VNull, VNull => true
  | VBool x, VBool y => Bool.eqb x y
  | VNum (Fin x), VNum (Fin y) => Qeq_bool x y
  | VStr x, VStr y => String.eqb x y
  | VRef x, VRef y => Nat.eqb x y
  | _, _ => false
  end.

Definition callable_of (h : heap) (v : value) : option callable :=
  match v with
  | VRef l => match h !! l with
              | Some (OFunction f) => Some f
              | _ => None
              end
  | _ => None
  end.

(** [(isFunction(resolved) ? resolved
                           : resolved.prototype.constructor || []).length] *)
Definition requiredLength (h : heap) (resolved : value) : value :=
  if isFunction h resolved then get h resolved "length"
  else match callable_of h resolved with
       | Some f => len_value (default 0%nat (ctor_length f))
       | None => VUndefined
       end.

(** [(obj.parameters || []).length] *)
Definition providedLength (h : heap) (obj : value) : value :=
  let parameters := get h obj "parameters" in
  if truthy parameters then get h parameters "length" else len_value 0.

(** The value shown in the messages: [obj.path || obj]. *)
Definition subject (h : heap) (obj : value) : value :=
  or_else (get h obj "path") obj.

Definition pathObjectExpressesSymbol (obj resolved : value) : M bool :=
  fun h =>
    if is_undefined resolved then
      Throw (NotAccessible (subject h obj))
    else if negb (isCallable h resolved)
            && truthy (getDef (get h obj "call") (VBool false)) then
      Throw (NotCallable (subject h obj))
    else if isCallable h resolved
            && truthy (getDef (get h obj "call") (VBool false)) then
      if truthy (getDef (get h obj "call") (VBool true))
         && negb (strict_eq (providedLength h obj) (requiredLength h resolved))
      then Throw (WrongArity (subject h obj) (providedLength h obj)
                             (requiredLength h resolved))
      else Ok (true, h)
    else Ok (true, h).

(** The [then] method of a thenable: [await] adopts an object whose
    [then] is callable. Of the objects of the model only a plain object
    can own a [then]. *)
Definition thenable (h : heap) (v : value) : option callable :=
  callable_of h (get h v "then").

(** [tryResolveDotPath] as a step of a computation. *)
Definition resolve (dotPath obj : value) : M value :=
  fun h => match tryResolveDotPath h dotPath obj with
           | Some v => Ok (v, h)
           | None => Unmodelled
           end.

(** The result of [tryMakeReferenceable]; the deferred accessor is a
    computation. *)
Record referenceable : Type := {
  isReferenceable : bool;
  getReference : option (M value)
}.

Definition REFERENCABLE (cb : M value) : referenceable :=
  {| isReferenceable := true; getReference := Some cb |}.

Definition NOT_REFERENCEABLE : referenceable :=
  {| isReferenceable := false; getReference := None |}.

(** [...(obj.parameters || [])], read when the accessor runs. *)
Definition arguments (obj : value) : M (list value) :=
  fun h =>
    let parameters := get h obj "parameters" in
    if truthy parameters then
      match iterate h parameters with
      | Some vs => Ok (vs, h)
      | None => Throw TypeError
      end
    else Ok ([], h).

(** A path segment pushed on [currentPath]: an array index or a key. *)
Inductive segment : Type :=
| Idx (i : nat)
| Key (k : string).

Definition segment_string (s : segment) : string :=
  match s with
  | Idx i => Str.of_nat i
  | Key k => k
  end.

Definition push (cp : list segment) (s : segment) : list segment := cp ++ [s].
Definition pop (cp : list segment) : list segment := removelast cp.

(** [ignoredPaths.includes(currentPath.join('.'))] *)
Definition isIgnored (ignoredPaths : list value) (cp : list segment) : bool :=
  existsb (strict_eq (VStr (Str.join "." (map segment_string cp)))) ignoredPaths.

Section Walker.

Variable host : Host.

Definition call_target (resolved : value) (args : list value) : M value :=
  fun h => match callable_of h resolved with
           | Some f => invoke host f args h
           | None => Throw TypeError
           end.

Definition new_target (resolved : value) (args : list value) : M value :=
  fun h => match callable_of h resolved with
           | Some f => construct host f args h
           | None => Throw TypeError
           end.

(** [await v], also where an [async] function returns [v] and its
    caller awaits the call: a thenable is adopted, any other value is
    the result. *)
Definition await (v : value) : M value :=
  fun h => match thenable h v with
           | Some f => adopt host f v h
           | None => Ok (v, h)
           end.

Section Body.

(** The recursive occurrences of [fill], as
    [fill({ input, data, ignoredPaths, currentPath })]. *)
Variable fill_rec :
  value -> value -> list value -> list segment -> M value.

Definition tryMakeReferenceable (obj resolved data : value)
  : M referenceable :=
  fun h =>
    if negb (isValidPathObject h obj) then Ok (NOT_REFERENCEABLE, h)
    else
      (let* expresses := pathObjectExpressesSymbol obj resolved in
       fun h =>
         if negb expresses then Ok (NOT_REFERENCEABLE, h)
         else if negb (isCallable h resolved) then
           (* REFERENCABLE_AS_RESOLVED: async () => resolved *)
           Ok (REFERENCABLE (await resolved), h)
         else if negb (truthy (getDef (get h obj "call") (VBool true))) then
           Ok (REFERENCABLE (await resolved), h)
         else
           (let* _ :=
              (* Process references in parameters *)
              (if truthy (get h obj "supportsNested")
                  && truthy (get h obj "parameters")
                  && is_positive (get h (get h obj "parameters") "length")
               then
                 (* [fill] gives an array back as it is, and an array
                    is no thenable *)
                 let* filled := fill_rec (get h obj "parameters") data [] [] in
                 store_prop obj "parameters" filled
               else ret tt) in
            fun h =>
              if isFunction h resolved then
                Ok (REFERENCABLE
                      (let* args := arguments obj in
                       call_target resolved args), h)
              else
                Ok (REFERENCABLE
                      (let* args := arguments obj in
                       new_target resolved args), h)) h) h.

(** [await r.getReference()]: the accessor gives what its promise
    settles to. *)
Definition dereference (r : referenceable) : M value :=
  match getReference r with
  | Some cb => cb
  | None => throw TypeError
  end.

(** The body of the loop over [input.entries()]: the iterator reads
    the array as it is at each step, and [n] bounds the steps. *)
Fixpoint fill_elements (n : nat) (a : loc) (i : nat)
  (data : value) (ignoredPaths : list value) (currentPath : list segment)
  : M unit :=
  fun h =>
    match h !! a with
    | Some (OArray elems) =>
        match elems !! i with
        | Some e =>
            match n with
            | O => OutOfFuel
            | S n' =>
                (let* res :=
                   (let currentPath1 := push currentPath (Idx i) in
                    if negb (isIgnored ignoredPaths currentPath1)
                    then
                      let* r := fill_rec e data ignoredPaths (pop currentPath1) in
                      await r
                    else
                      (* res = Promise.resolve(e) *)
                      await e) in
                 let* _ := store_elem a i res in
                 fill_elements n' a (S i) data ignoredPaths currentPath) h
            end
        | None => Ok (tt, h)
        end
    | _ => Ok (tt, h)
    end.

(** The loop over [Object.entries(input)]. *)
Fixpoint fill_entries (es : list (string * value))
  (data : value) (ignoredPaths : list value) (currentPath : list segment)
  : M (list (string * value)) :=
  match es with
  | [] => ret []
  | (k, v) :: rest =>
      let* e :=
        (let currentPath1 := push currentPath (Key k) in
         if negb (isIgnored ignoredPaths currentPath1) then
           let* parsed := parsePathObject v in
           let* pathPointsTo :=
             (fun h => resolve (or_else (get h parsed "path") v) data h) in
           let* r := tryMakeReferenceable parsed pathPointsTo data in
           let* res :=
             (if isReferenceable r then dereference r
              else
                let* x := fill_rec v data ignoredPaths currentPath1 in
                await x) in
           ret (k, res)
         else ret (k, v)) in
      let* rest' := fill_entries rest data ignoredPaths currentPath in
      ret (e :: rest')
  end.

Definition fill_body (n : nat)
  (input data : value) (ignoredPaths : list value)
  (currentPath : list segment) : M value :=
  fun h =>
    if negb (existsb (jstype_eqb (typeof h input)) [TyString; TyObject])
    then Ok (input, h)
    else
      (let* parsed := parsePathObject input in
       let* pathPointsTo :=
         (fun h => resolve (get h parsed "path") data h) in
       let* r := tryMakeReferenceable parsed pathPointsTo data in
       if isReferenceable r then dereference r
       else fun h =>
         if jstype_eqb (typeof h input) TyString then Ok (input, h)
         else if isArray h input then
           match input with
           | VRef a =>
               (let* _ := fill_elements n a 0 data ignoredPaths currentPath in
                ret input) h
           | _ => Ok (input, h)
           end
         else
           match entries h input with
           | Some es =>
               (let* es' := fill_entries es data ignoredPaths currentPath in
                alloc (OObject (fromEntries es'))) h
           | None => Throw TypeError
           end) h.

End Body.

(** [fill({ input, data, ignoredPaths = [], currentPath = [] })], the
    four fields of its argument being the four arguments here; the fuel
    bounds the depth of the recursion and the length of each loop over
    an array. Every [await] is awaited on the spot, so the asynchronous
    function is a sequential computation. The result is the value the
    body returns, with which the promise of the call is resolved; where
    the source awaits a call of [fill] on an element or an entry, [await]
    follows it. *)
Fixpoint fill (fuel : nat)
  (input data : value) (ignoredPaths : list value)
  (currentPath : list segment) : M value :=
  match fuel with
  | O => out_of_fuel
  | S n => fill_body (fill n) n input data ignoredPaths currentPath
  end.

End Walker.

(** ** Data maps and inputs of the examples

    The host of the examples runs five pieces of caller code:
    [(x, y) => x + y], [() => 1], [() => "7"], [(n) => Number(n) + 1] and
    [class { constructor(n) { this.n = n; } }]. Their arithmetic is
    modelled on numbers, [undefined], [null], booleans and decimal
    strings, which is all they receive here. *)

Module Demo.

(** [Number(v)] *)
Definition to_number (v : value) : number :=
  match v with
  | VUndefined => NaN
  | VNull => Fin 0
  | VBool b => Fin (if b then 1 else 0)
  | VNum n => n
  | VStr s =>
      if String.eqb s EmptyString then Fin 0
      else if Regex.test Json.number_re s
           then Fin (Json.number_val (Str.chars s))
           else NaN
  | VRef _ => NaN
  end.

(** [a + b] on numbers *)
Definition num_add (a b : number) : number :=
  match a, b with
  | Fin x, Fin y => Fin (Qred (x + y))
  | _, _ => NaN
  end.

(** A formal parameter without an actual one is [undefined]. *)
Definition arg (args : list value) (i : nat) : value :=
  default VUndefined (args !! i).

Definition add : callable := Callable 0 2 false false None.
Definition one : callable := Callable 1 0 false false None.
Definition inner : callable := Callable 2 0 false false None.
Definition outer : callable := Callable 3 1 false false None.
Definition C : callable := Callable 4 1 true false (Some 1%nat).

Definition host : Host := {|
  invoke f args :=
    match fn_id f with
    | 0%nat => ret (VNum (num_add (to_number (arg args 0))
                                  (to_number (arg args 1))))
    | 1%nat => ret (VInt 1)
    | 2%nat => ret (VStr "7")
    | 3%nat => ret (VNum (num_add (to_number (arg args 0)) (Fin 1)))
    | _ => throw TypeError
    end;
  construct f args :=
    match fn_id f with
    | 4%nat => alloc (OObject [("n", arg args 0)])
    | _ => throw TypeError
    end;
  (* called as a [then] method, the class raises for want of [new], and
     none of the four functions calls a resolving function: the promise
     never settles *)
  adopt f v :=
    match fn_id f with
    | 4%nat => throw TypeError
    | _ => out_of_fuel
    end
|}.

(** [M = {f: (x, y) => x + y}], the data map at location 1. *)
Definition heap_add : heap := [OFunction add; OObject [("f", VRef 0)]].

(** [M = {f: () => 1}], the data map at location 1. *)
Definition heap_one : heap := [OFunction one; OObject [("f", VRef 0)]].

(** [M = {inner: () => "7", outer: (n) => Number(n) + 1}] at location 2,
    and the input [{path: "outer", parameters: [{path: "inner"}]}] at
    location 5. *)
Definition heap_nested : heap :=
  [OFunction inner; OFunction outer;
   OObject [("inner", VRef 0); ("outer", VRef 1)];
   OObject [("path", VStr "inner")];
   OArray [VRef 3];
   OObject [("path", VStr "outer"); ("parameters", VRef 4)]].

(** [M = {x: 5}] at location 0 and the input [{a: "{x}", b: "{x}"}] at
    location 1. *)
Definition heap_ignored : heap :=
  [OObject [("x", VInt 5)];
   OObject [("a", VStr "{x}"); ("b", VStr "{x}")]].

(** [M = {x: 5}] at location 0 and the input [{a: [{b: "{x}"}]}] at
    location 3. *)
Definition heap_under_array : heap :=
  [OObject [("x", VInt 5)];
   OObject [("b", VStr "{x}")];
   OArray [VRef 1];
   OObject [("a", VRef 2)]].

(** [M = {x: 5}] at location 0, the input array [["{x}", "y"]] at
    location 1 and the input mapping [{k: "{x}"}] at location 2. *)
Definition heap_inplace : heap :=
  [OObject [("x", VInt 5)];
   OArray [VStr "{x}"; VStr "y"];
   OObject [("k", VStr "{x}")]].

(** [M = {x: 5}] at location 0 and the descriptors
    [{path: "x", call: false}] and [{path: "x", call: true}] at
    locations 1 and 2. *)
Definition heap_call : heap :=
  [OObject [("x", VInt 5)];
   OObject [("path", VStr "x"); ("call", VBool false)];
   OObject [("path", VStr "x"); ("call", VBool true)]].

(** The descriptor [{path: "a.b", parameters: [1, 2], call: true}] at
    location 1. *)
Definition heap_descriptor : heap :=
  [OArray [VInt 1; VInt 2];
   OObject [("path", VStr "a.b"); ("parameters", VRef 0);
            ("call", VBool true)]].

(** [M = {C: class { constructor(n) { this.n = n; } }}] at location 1. *)
Definition heap_class : heap := [OFunction C; OObject [("C", VRef 0)]].

(** The empty data map [{}] at location 0 and the input [{a: null}] at
    location 1. *)
Definition heap_null : heap :=
  [OObject []; OObject [("a", VNull)]].

End Demo.

(** ** Vocabulary of the statements *)

(** No character of [s] is in [cs]. *)
Definition avoids (cs : list ascii) (s : string) : bool :=
  forallb (fun c => negb (Regex.mem c cs)) (Str.chars s).

(** A path field of the compact form: not empty, no semicolon, no
    newline. *)
Definition path_field (p : string) : bool :=
  negb (String.eqb p EmptyString) && avoids [";"%char; Str.newline] p.

(** The text of a compact descriptor with the given fields: the path, a
    bracketed parameters field when [body] is given, a call field when
    [call] is given; an absent parameters field before a call field is
    the empty field. *)
Definition flag (c : bool) : string := if c then "true" else "false".

Definition bracketed (b : string) : string := ("[" ++ b ++ "]")%string.

Definition compact (p : string) (body : option string) (call : option bool)
  : string :=
  let params := match body with Some b => bracketed b | None => EmptyString end in
  ("{" ++ p
       ++ match body, call with
          | None, None => EmptyString
          | Some _, None => ";" ++ params
          | _, Some c => ";" ++ params ++ ";" ++ flag c
          end
       ++ "}")%string.

Definition call_field (call : option bool) : value :=
  match call with Some c => VBool c | None => VUndefined end.

(** The descriptor object the compact form stands for. *)
Definition descriptor (path parameters call : value) : object :=
  OObject [("path", path); ("parameters", parameters); ("call", call)].

(** The walker looks at strings and objects only. *)
Definition walkable (h : heap) (v : value) : bool :=
  existsb (jstype_eqb (typeof h v)) [TyString; TyObject].

(** The test that guards the nested resolution of the parameters. *)
Definition nested (obj : value) (h : heap) : bool :=
  truthy (get h obj "supportsNested")
  && truthy (get h obj "parameters")
  && is_positive (get h (get h obj "parameters") "length").

(** The deferred accessor of an invoked target, as chosen in heap [h]. *)
Definition accessor (host : Host) (obj resolved : value) (h : heap) : M value :=
  if isFunction h resolved
  then (let* args := arguments obj in call_target host resolved args)
  else (let* args := arguments obj in new_target host resolved args).

(** Choosing the accessor and running it at once. *)
Definition invoke_target (host : Host) (obj resolved : value) : M value :=
  fun h => accessor host obj resolved h h.

(** A defined value that is not a reference: never callable. *)
Definition primitive (v : value) : bool :=
  match v with VUndefined | VRef _ => false | _ => true end.

(** The bare compact reference to the data entry [k]: an opening brace,
    the key, a closing brace. *)
Definition reference (k : string) : value := VStr (compact k None None).

Definition lookup_in (dprops : list (string * value)) (k : string) : value :=
  default VUndefined (assoc k dprops).

(** A key whose bare reference resolves to a primitive of the data map. *)
Definition resolvable (dprops : list (string * value)) (k : string) : bool :=
  path_field k && avoids ["."%char] k && primitive (lookup_in dprops k).

Definition reference_entry (e : string * string) : string * value :=
  (fst e, reference (snd e)).

Definition resolved_entry (dprops : list (string * value)) (e : string * string)
  : string * value :=
  (fst e, lookup_in dprops (snd e)).

(** ** Vocabulary of the further properties *)

(** One step of the descent, as [tryResolveDotPath] folds it. *)
Definition descend (h : heap) (acc : option value) (b : string) : option value :=
  match acc with
  | Some a => if truthy a then read h a b else Some VUndefined
  | None => None
  end.

(** [c] occurs in no word of [r]: every class of [r] leaves it out. *)
Fixpoint never (c : ascii) (r : Regex.regex) : bool :=
  match r with
  | Regex.Void | Regex.Eps => true
  | Regex.OneOf cs => negb (Regex.mem c cs)
  | Regex.NoneOf cs => Regex.mem c cs
  | Regex.Seq r1 r2 | Regex.Alt r1 r2 => never c r1 && never c r2
  | Regex.Star r1 => never c r1
  end.

(** The text of a compact string with a path and, straight after it, a
    field [true] or [false]. *)
Definition misplaced_flag (p : string) (c : bool) : string :=
  ("{" ++ p ++ ";" ++ flag c ++ "}")%string.

(** A reference is bound when it points into the heap; a heap is closed
    when the values its arrays and objects hold are bound. *)
Definition bound (h : heap) (v : value) : bool :=
  match v with
  | VRef l => (l <? length h)%nat
  | _ => true
  end.

Definition closed_object (h : heap) (o : object) : bool :=
  match o with
  | OArray elems => forallb (bound h) elems
  | OObject props => forallb (fun e => bound h (snd e)) props
  | OFunction _ => true
  end.

Definition closed (h : heap) : bool := forallb (closed_object h) h.

(** ** The earlier revision, [src/unnamed/part_000]

    The earlier revision of the source tests the compact form with
    [startsWith] and [endsWith] instead of the regular expression, and its
    [parsePathObject] returns a valid structured descriptor itself instead
    of a marked copy. Its [isValidPathObject] is the same text as the
    current one. *)

Module Draft.

(** [s.startsWith(p)]: the first [p.length] characters of [s] are [p]. *)
Definition startsWith (s p : string) : bool :=
  String.eqb (substring 0 (String.length p) s) p.

(** [s.endsWith(p)]: the last [p.length] characters of [s] are [p]. *)
Definition endsWith (s p : string) : bool :=
  (String.length p <=? String.length s)%nat
  && String.eqb
       (substring (String.length s - String.length p) (String.length p) s) p.

Definition isShortHand (obj : value) : bool :=
  match obj with
  | VStr s => startsWith s "{" && endsWith s "}"
  | _ => false
  end.

Definition parsePathObject (obj : value) : M value :=
  fun h =>
    if isValidPathObject h obj then
      (* return obj *)
      ret obj h
    else if isShortHand obj then
      match obj with
      | VStr s =>
          let elems := Str.split ";" (Str.slice s 1 (-1)) in
          let path := elem_value elems 0 in
          let params := elem_value elems 1 in
          let call := elem_value elems 2 in
          (let* parameters :=
             match params with
             | VStr text =>
                 if truthy params && is_positive (get h params "length")
                 then JSON_parse text
                 else ret VUndefined
             | _ => ret VUndefined
             end in
           alloc (OObject
                    [("path", path);
                     ("parameters", parameters);
                     ("call",
                      match call with
                      | VStr c =>
                          if includes c ["true"; "false"]
                          then VBool (String.eqb c "true")
                          else VUndefined
                      | _ => VUndefined
                      end)])) h
      | _ => alloc (OObject []) h
      end
    else
      alloc (OObject []) h.

End Draft.

(** * Properties *)

(** ** The matcher decides the language *)

Module RegexFacts.
Import Regex.

Lemma nullable_iff r : nullable r = true <-> matches r [].
Proof.
  induction r; simpl; split; intros H;
    try discriminate; try reflexivity.
  - inversion H.
  - constructor.
  - inversion H.
  - inversion H.
  - apply andb_prop in H as [H1 H2].
    change (@nil ascii) with (@nil ascii ++ []).
    constructor; [apply IHr1 | apply IHr2]; assumption.
  - inversion H; subst.
    match goal with
    | E : _ ++ _ = [] |- _ => apply app_eq_nil in E as [-> ->]
    end.
    apply andb_true_intro; split; [apply IHr1 | apply IHr2]; assumption.
  - apply orb_prop in H as [H | H];
      [apply MAltL, IHr1 | apply MAltR, IHr2]; assumption.
  - inversion H; subst; apply orb_true_intro;
      [left; apply IHr1 | right; apply IHr2]; assumption.
  - constructor.
Qed.

Lemma deriv_sound c r : forall s, matches (deriv c r) s -> matches r (c :: s).
Proof.
  induction r; simpl; intros s H.
  - inversion H.
  - inversion H.
  - destruct (mem c cs) eqn:E; inversion H; subst. now constructor.
  - destruct (mem c cs) eqn:E; inversion H; subst. now constructor.
  - assert (Hseq : forall s, matches (Seq (deriv c r1) r2) s ->
                             matches (Seq r1 r2) (c :: s)).
    { intros s0 H0. inversion H0; subst.
      change (c :: s1 ++ s2) with ((c :: s1) ++ s2).
      constructor; auto. }
    destruct (nullable r1) eqn:N.
    + inversion H; subst; [now apply Hseq |].
      change (c :: s) with ([] ++ c :: s).
      constructor; [now apply nullable_iff | now apply IHr2].
    + now apply Hseq.
  - inversion H; subst; [apply MAltL | apply MAltR]; auto.
  - inversion H; subst.
    change (c :: s1 ++ s2) with ((c :: s1) ++ s2).
    constructor; auto.
Qed.

Lemma deriv_complete r s' :
  matches r s' -> forall c s, s' = c :: s -> matches (deriv c r) s.
Proof.
  induction 1 as [ | c0 cs Hm | c0 cs Hm
                 | r1 r2 s1 s2 H1 IH1 H2 IH2
                 | r1 r2 s0 H1 IH1 | r1 r2 s0 H2 IH2
                 | r0 | r0 s1 s2 H1 IH1 H2 IH2 ];
    intros c s E; simpl.
  - discriminate.
  - injection E as -> <-. rewrite Hm. constructor.
  - injection E as -> <-. rewrite Hm. constructor.
  - destruct s1 as [| c1 s1'].
    + simpl in E. subst s2.
      assert (N : nullable r1 = true) by now apply nullable_iff.
      rewrite N. apply MAltR. now apply IH2.
    + simpl in E. injection E as -> <-.
      assert (matches (Seq (deriv c r1) r2) (s1' ++ s2))
        by (constructor; [now apply IH1 | assumption]).
      destruct (nullable r1); [now apply MAltL | assumption].
  - apply MAltL. now apply IH1.
  - apply MAltR. now apply IH2.
  - discriminate.
  - destruct s1 as [| c1 s1'].
    + simpl in E. now apply IH2.
    + simpl in E. injection E as -> <-.
      constructor; [now apply IH1 | assumption].
Qed.

Theorem run_iff r s : run r s = true <-> matches r s.
Proof.
  revert r. induction s as [| c s IH]; intros r; simpl.
  - apply nullable_iff.
  - rewrite IH. split.
    + apply deriv_sound.
    + intros H. now apply (deriv_complete r (c :: s)).
Qed.

(** A run of admissible characters is in the language of the star. *)
Lemma matches_star_class cs s :
  forallb (fun c => negb (mem c cs)) s = true ->
  matches (Star (NoneOf cs)) s.
Proof.
  induction s as [| c s IH]; simpl; intros H.
  - constructor.
  - apply andb_prop in H as [Hc Hs].
    change (c :: s) with ([c] ++ s).
    constructor; [| now apply IH].
    constructor. now destruct (mem c cs).
Qed.

Lemma matches_plus_class cs s :
  s <> [] ->
  forallb (fun c => negb (mem c cs)) s = true ->
  matches (Plus (NoneOf cs)) s.
Proof.
  destruct s as [| c s]; [congruence |]. simpl. intros _ H.
  apply andb_prop in H as [Hc Hs].
  change (c :: s) with ([c] ++ s).
  constructor; [| now apply matches_star_class].
  constructor. now destruct (mem c cs).
Qed.

Lemma matches_word w : matches (Word w) (Str.chars w).
Proof.
  induction w as [| c w IH]; simpl.
  - constructor.
  - change (c :: Str.chars w) with ([c] ++ Str.chars w).
    constructor; [| exact IH].
    constructor. simpl. now rewrite Ascii.eqb_refl.
Qed.

Lemma matches_lit c : matches (Lit c) [c].
Proof. constructor. simpl. now rewrite Ascii.eqb_refl. Qed.

End RegexFacts.

(** ** Strings *)

Module StrFacts.

Lemma chars_app (a b : string) :
  Str.chars (a ++ b)%string = Str.chars a ++ Str.chars b.
Proof.
  induction a as [| c a IH]; simpl; [reflexivity |].
  unfold Str.chars in *. simpl. now rewrite IH.
Qed.

Lemma length_app (a b : string) :
  String.length (a ++ b)%string = (String.length a + String.length b)%nat.
Proof. induction a as [| c a IH]; simpl; [reflexivity | now rewrite IH]. Qed.

Lemma substring_prefix (p s : string) :
  substring 0 (String.length p) (p ++ s)%string = p.
Proof.
  induction p as [| c p IH]; simpl.
  - now destruct s.
  - now rewrite IH.
Qed.

(** [s.slice(1, -1)] drops the first and the last character. *)
Lemma slice_inner (o c : ascii) (p : string) :
  Str.slice (String o (p ++ String c EmptyString)%string) 1 (-1) = p.
Proof.
  unfold Str.slice, Str.clamp.
  set (len := Z.of_nat (String.length (String o (p ++ String c EmptyString)%string))).
  assert (L : len = (Z.of_nat (String.length p) + 2)%Z).
  { unfold len. simpl String.length. rewrite length_app. simpl. lia. }
  change (1 <? 0)%Z with false. change (-1 <? 0)%Z with true. cbv iota.
  replace (Z.to_nat (Z.min 1 len)) with 1%nat by lia.
  replace (Z.to_nat (Z.max (len + -1) 0 - Z.min 1 len))
    with (String.length p) by lia.
  simpl. apply substring_prefix.
Qed.

Lemma split_whole (sep : ascii) (s : string) :
  avoids [sep] s = true -> Str.split sep s = [s].
Proof.
  unfold avoids. induction s as [| c s IH]; simpl; [reflexivity |].
  rewrite orb_false_r. intros H. apply andb_prop in H as [Hc Hs].
  destruct (Ascii.eqb c sep); [discriminate |].
  now rewrite (IH Hs).
Qed.

Lemma split_app (sep : ascii) (a b : string) :
  avoids [sep] a = true ->
  Str.split sep (a ++ String sep b)%string = a :: Str.split sep b.
Proof.
  unfold avoids. induction a as [| c a IH]; simpl.
  - intros _. now rewrite Ascii.eqb_refl.
  - rewrite orb_false_r. intros H. apply andb_prop in H as [Hc Hs].
    destruct (Ascii.eqb c sep); [discriminate |].
    now rewrite (IH Hs).
Qed.

Lemma avoids_weaken (c : ascii) (cs : list ascii) (s : string) :
  Regex.mem c cs = true -> avoids cs s = true -> avoids [c] s = true.
Proof.
  unfold avoids. intros Hc.
  induction (Str.chars s) as [| x xs IH]; cbn [forallb]; [reflexivity |].
  intros H. apply andb_prop in H as [Hx Hxs].
  rewrite (IH Hxs), andb_true_r. unfold Regex.mem at 1. cbn [existsb].
  rewrite orb_false_r.
  destruct (Ascii.eqb x c) eqn:E; [| reflexivity].
  apply Ascii.eqb_eq in E. subst x. now rewrite Hc in Hx.
Qed.

Lemma avoids_app (cs : list ascii) (a b : string) :
  avoids cs (a ++ b)%string = avoids cs a && avoids cs b.
Proof. unfold avoids. now rewrite chars_app, forallb_app. Qed.

End StrFacts.

(** ** The parser *)

Module ParserFacts.
Import Regex RegexFacts StrFacts.

Lemma matches_seq r1 r2 (s s1 s2 : list ascii) :
  s = s1 ++ s2 -> matches r1 s1 -> matches r2 s2 -> matches (Seq r1 r2) s.
Proof. intros ->. apply MSeq. Qed.

Lemma matches_params b :
  avoids [Str.newline] b = true ->
  matches (Seq (Lit ";") (Seq (Lit "[") (Seq (Star (NoneOf [Str.newline])) (Lit "]"))))
          (";"%char :: "["%char :: Str.chars b ++ ["]"%char]).
Proof.
  intros Hb.
  apply (MSeq _ _ [_]); [apply matches_lit |].
  apply (MSeq _ _ [_]); [apply matches_lit |].
  apply MSeq; [| apply matches_lit].
  now apply matches_star_class.
Qed.

Lemma matches_flag (c : bool) :
  matches (Seq (Lit ";") (Alt (Word "true") (Word "false")))
          (";"%char :: Str.chars (if c then "true" else "false")).
Proof.
  apply (MSeq _ _ [_]); [apply matches_lit |].
  destruct c; [apply MAltL | apply MAltR]; apply matches_word.
Qed.

Lemma isShortHand_compact p body call :
  path_field p = true ->
  (forall b, body = Some b -> avoids [Str.newline] b = true) ->
  isShortHand (VStr (compact p body call)) = true.
Proof.
  intros Hp Hb. apply andb_prop in Hp as [Hne Hp].
  unfold isShortHand, Regex.test. apply run_iff.
  unfold compact, bracketed, flag, shorthand_re.
  rewrite !chars_app.
  apply MSeq; [apply matches_lit |].
  apply MSeq.
  { apply matches_plus_class; [| exact Hp].
    destruct p; [discriminate | discriminate]. }
  destruct body as [b |], call as [c |]; rewrite ?chars_app.
  - eapply (matches_seq _ _ _ (";"%char :: "["%char :: Str.chars b ++ ["]"%char])).
    2: { apply MAltR, MAltR, matches_params. now apply Hb. }
    2: { eapply matches_seq; [| apply MAltR, MAltR, matches_flag | apply matches_lit].
         reflexivity. }
    simpl. rewrite <- !app_assoc. reflexivity.
  - eapply (matches_seq _ _ _ (";"%char :: "["%char :: Str.chars b ++ ["]"%char])).
    2: { apply MAltR, MAltR, matches_params. now apply Hb. }
    2: { eapply (matches_seq _ _ _ []); [| apply MAltL, MEps | apply matches_lit].
         reflexivity. }
    simpl. rewrite <- !app_assoc. reflexivity.
  - eapply (matches_seq _ _ _ [";"%char]).
    2: { apply MAltR, MAltL, matches_lit. }
    2: { eapply matches_seq; [| apply MAltR, MAltR, matches_flag | apply matches_lit].
         reflexivity. }
    reflexivity.
  - eapply (matches_seq _ _ _ []); [| apply MAltL, MEps |].
    2: { eapply (matches_seq _ _ _ []); [| apply MAltL, MEps | apply matches_lit].
         reflexivity. }
    reflexivity.
Qed.

Lemma append_assoc (a b c : string) : ((a ++ b) ++ c = a ++ (b ++ c))%string.
Proof. induction a as [| x a IH]; simpl; [reflexivity | now rewrite IH]. Qed.

Lemma append_nil_r (a : string) : (a ++ EmptyString)%string = a.
Proof. induction a as [| x a IH]; simpl; [reflexivity | now rewrite IH]. Qed.


Lemma avoids_bracketed b :
  avoids [";"%char; Str.newline] b = true -> avoids [";"%char] (bracketed b) = true.
Proof.
  intros H. unfold bracketed. rewrite !avoids_app.
  rewrite (avoids_weaken ";" [";"%char; Str.newline] b); [reflexivity | reflexivity | exact H].
Qed.

Lemma compact_fields p body call :
  path_field p = true ->
  (forall b, body = Some b -> avoids [";"%char; Str.newline] b = true) ->
  Str.split ";" (Str.slice (compact p body call) 1 (-1))
  = p :: match body, call with
         | None, None => []
         | Some b, None => [bracketed b]
         | None, Some c => [EmptyString; flag c]
         | Some b, Some c => [bracketed b; flag c]
         end.
Proof.
  intros Hp Hb. apply andb_prop in Hp as [_ Hp].
  assert (Hp' : avoids [";"%char] p = true)
    by (apply (avoids_weaken ";" [";"%char; Str.newline] p); [reflexivity | exact Hp]).
  unfold compact. cbn [String.append].
  rewrite <- append_assoc, slice_inner.
  destruct body as [b |], call as [c |].
  - change (";" ++ ("[" ++ b ++ "]") ++ ";" ++ (if c then "true" else "false"))%string
      with (String ";" (bracketed b ++ String ";" (flag c)))%string.
    rewrite split_app by exact Hp'.
    rewrite split_app by (apply avoids_bracketed; now apply Hb).
    now destruct c.
  - change (";" ++ "[" ++ b ++ "]")%string with (String ";" (bracketed b)).
    rewrite split_app by exact Hp'.
    rewrite split_whole by (apply avoids_bracketed; now apply Hb).
    reflexivity.
  - change (";" ++ EmptyString ++ ";" ++ (if c then "true" else "false"))%string
      with (String ";" (EmptyString ++ String ";" (flag c)))%string.
    rewrite split_app by exact Hp'.
    rewrite split_app by reflexivity.
    now destruct c.
  - rewrite append_nil_r. now apply split_whole.
Qed.

Lemma string_never_valid h s : isValidPathObject h (VStr s) = false.
Proof.
  unfold isValidPathObject. cbn. now rewrite andb_false_r.
Qed.

(** Facts about properties and heap extension. *)
Lemma assoc_set_prop_eq k v ps : assoc k (set_prop k v ps) = Some v.
Proof.
  induction ps as [| [k' v'] ps IH]; simpl.
  - now rewrite String.eqb_refl.
  - destruct (String.eqb k k') eqn:E; simpl.
    + now rewrite String.eqb_refl.
    + now rewrite E.
Qed.

Lemma assoc_set_prop_ne k k' v ps :
  k <> k' -> assoc k' (set_prop k v ps) = assoc k' ps.
Proof.
  intros N. induction ps as [| [k0 v0] ps IH]; simpl.
  - apply String.eqb_neq in N. rewrite String.eqb_sym. now rewrite N.
  - destruct (String.eqb k k0) eqn:E; simpl.
    + apply String.eqb_eq in E. subst k0.
      apply String.eqb_neq in N. rewrite String.eqb_sym. now rewrite N.
    + now rewrite IH.
Qed.

Lemma set_prop_idem k v ps : set_prop k v (set_prop k v ps) = set_prop k v ps.
Proof.
  induction ps as [| [k' v'] ps IH]; simpl.
  - now rewrite String.eqb_refl.
  - destruct (String.eqb k k') eqn:E; simpl.
    + now rewrite String.eqb_refl.
    + now rewrite E, IH.
Qed.

(** Only a plain object can be a valid structured descriptor. *)
Lemma valid_is_object h obj :
  isValidPathObject h obj = true ->
  exists l props, obj = VRef l /\ h !! l = Some (OObject props).
Proof.
  unfold isValidPathObject. intros H.
  repeat (apply andb_prop in H as [H ?]).
  destruct obj as [| | b | n | s | l]; try discriminate.
  unfold get in *. destruct (h !! l) as [[elems | props | f] |] eqn:E.
  - cbn in *. discriminate.
  - eauto.
  - cbn in *. discriminate.
  - discriminate.
Qed.

Lemma get_object h l props k :
  h !! l = Some (OObject props) ->
  get h (VRef l) k = default VUndefined (assoc k props).
Proof. intros E. unfold get. now rewrite E. Qed.

Lemma get_fresh (h : heap) o k :
  get (h ++ [o]) (VRef (length h)) k
  = match o with
    | OObject props => default VUndefined (assoc k props)
    | _ => get (h ++ [o]) (VRef (length h)) k
    end.
Proof.
  destruct o; try reflexivity. unfold get.
  now rewrite list_lookup_middle.
Qed.

Lemma isArray_ext (h x : heap) v :
  isArray h v = true -> isArray (h ++ x) v = true.
Proof.
  destruct v; try discriminate. simpl.
  destruct (h !! l) as [o |] eqn:E; [| discriminate].
  now rewrite (lookup_app_l_Some _ _ _ _ E).
Qed.

Lemma isArray_typeof h v : isArray h v = true -> typeof h v = TyObject.
Proof.
  destruct v; try discriminate. simpl.
  destruct (h !! l) as [[| |] |]; try discriminate. reflexivity.
Qed.

Lemma valid_fields h l props :
  h !! l = Some (OObject props) ->
  isValidPathObject h (VRef l) =
    let path := default VUndefined (assoc "path" props) in
    let call := default VUndefined (assoc "call" props) in
    let parameters := default VUndefined (assoc "parameters" props) in
    truthy path
    && jstype_eqb (typeof h path) TyString
    && (jstype_eqb (typeof h call) TyBoolean || loosely_undefined call)
    && ((jstype_eqb (typeof h parameters) TyObject && isArray h parameters)
        || is_undefined parameters).
Proof.
  intros E. unfold isValidPathObject. now rewrite !(get_object h l props _ E).
Qed.

Lemma typeof_string h h' v :
  jstype_eqb (typeof h v) TyString = true -> jstype_eqb (typeof h' v) TyString = true.
Proof. destruct v; try discriminate; try reflexivity. simpl. destruct (h !! l) as [[| |]|]; discriminate. Qed.

Lemma typeof_boolean h h' v :
  jstype_eqb (typeof h v) TyBoolean = true -> jstype_eqb (typeof h' v) TyBoolean = true.
Proof. destruct v; try discriminate; try reflexivity. simpl. destruct (h !! l) as [[| |]|]; discriminate. Qed.

(** The copy that [parsePathObject] makes of a valid descriptor is valid. *)
Lemma valid_copy h l props :
  h !! l = Some (OObject props) ->
  isValidPathObject h (VRef l) = true ->
  isValidPathObject
    (h ++ [OObject (set_prop "supportsNested" (VBool true) props)])
    (VRef (length h)) = true.
Proof.
  intros E V. rewrite (valid_fields h l props E) in V.
  rewrite (valid_fields _ (length h) (set_prop "supportsNested" (VBool true) props))
    by apply list_lookup_middle, eq_refl.
  cbv zeta in *.
  rewrite !assoc_set_prop_ne by discriminate.
  repeat (apply andb_prop in V as [V ?]).
  rewrite V. cbn [andb].
  rewrite (typeof_string h _ _ H1). cbn [andb].
  apply andb_true_intro; split.
  - apply orb_prop in H0 as [B | B]; [rewrite (typeof_boolean h _ _ B) | rewrite B];
      auto using orb_true_r.
  - apply orb_prop in H as [B | B]; [| rewrite B; apply orb_true_r].
    apply andb_prop in B as [_ B].
    rewrite (isArray_typeof _ _ (isArray_ext h _ _ B)), (isArray_ext h _ _ B).
    reflexivity.
Qed.

Lemma shorthand_is_string obj : isShortHand obj = true -> exists s, obj = VStr s.
Proof. destruct obj; try discriminate. eauto. Qed.

Lemma nonempty_field h text :
  text <> EmptyString ->
  truthy (VStr text) && is_positive (get h (VStr text) "length") = true.
Proof. destruct text; [congruence | reflexivity]. Qed.

(** The parameters field of a compact string, as [parsePathObject]
    decodes it. *)
Lemma parsePathObject_shorthand h s :
  isShortHand (VStr s) = true ->
  parsePathObject (VStr s) h =
    let elems := Str.split ";" (Str.slice s 1 (-1)) in
    let call :=
      match elem_value elems 2 with
      | VStr c => if includes c ["true"; "false"]
                  then VBool (String.eqb c "true") else VUndefined
      | _ => VUndefined
      end in
    match elems !! 1 with
    | Some text =>
        if String.eqb text EmptyString then
          Ok (VRef (length h), h ++ [descriptor (elem_value elems 0) VUndefined call])
        else
          (let* parameters := JSON_parse text in
           alloc (descriptor (elem_value elems 0) parameters call)) h
    | None =>
        Ok (VRef (length h), h ++ [descriptor (elem_value elems 0) VUndefined call])
    end.
Proof.
  intros S. unfold parsePathObject. rewrite string_never_valid, S. cbv zeta.
  set (elems := Str.split ";" (Str.slice s 1 (-1))).
  unfold elem_value.
  destruct (elems !! 1) as [text |]; [| reflexivity].
  destruct (String.eqb text EmptyString) eqn:E.
  - apply String.eqb_eq in E. subst text. reflexivity.
  - apply String.eqb_neq in E. unfold bind. rewrite (nonempty_field h text E). reflexivity.
Qed.

End ParserFacts.

Import ParserFacts.

Lemma parse_compact (h : heap) p body call :
  path_field p = true ->
  (forall b, body = Some b -> avoids [";"%char; Str.newline] b = true) ->
  parsePathObject (VStr (compact p body call)) h
  = match body with
    | None =>
        Ok (VRef (length h),
            h ++ [descriptor (VStr p) VUndefined (call_field call)])
    | Some b =>
        (let* parameters := JSON_parse ("[" ++ b ++ "]") in
         alloc (descriptor (VStr p) parameters (call_field call))) h
    end.
Proof.
  intros Hp Hb. unfold parsePathObject.
  rewrite string_never_valid.
  assert (Hb' : forall b, body = Some b -> avoids [Str.newline] b = true).
  { intros b E.
    apply (StrFacts.avoids_weaken Str.newline [";"%char; Str.newline] b);
      [reflexivity | now apply Hb]. }
  rewrite (isShortHand_compact p body call Hp Hb').
  rewrite (compact_fields p body call Hp Hb).
  destruct body as [b |].
  - assert (T : truthy (VStr (bracketed b)) && is_positive (get h (VStr (bracketed b)) "length") = true) by reflexivity.
    destruct call as [[|] |]; cbn [elem_value lookup list_lookup];
      rewrite T; reflexivity.
  - destruct call as [[|] |]; reflexivity.
Qed.

(** What [parsePathObject] returns for a valid structured descriptor. *)
Lemma parse_valid (h : heap) l props :
  h !! l = Some (OObject props) ->
  isValidPathObject h (VRef l) = true ->
  parsePathObject (VRef l) h
  = Ok (VRef (length h),
        h ++ [OObject (set_prop "supportsNested" (VBool true) props)]).
Proof.
  intros E V. unfold parsePathObject. rewrite V. unfold entries. rewrite E.
  reflexivity.
Qed.

(** ** The walker *)

Module WalkerFacts.

Section WalkerFacts.
Variable host : Host.

Lemma fill_plain n input data ign cp h :
  walkable h input = false ->
  fill host (S n) input data ign cp h = Ok (input, h).
Proof.
  intros W. cbn [fill]. unfold fill_body. unfold walkable in W. now rewrite W.
Qed.

Lemma fill_root n input data ign cp h p h1 resolved :
  walkable h input = true ->
  parsePathObject input h = Ok (p, h1) ->
  tryResolveDotPath h1 (get h1 p "path") data = Some resolved ->
  fill host (S n) input data ign cp h =
    (let* r := tryMakeReferenceable host (fill host n) p resolved data in
     if isReferenceable r then dereference r
     else fun h =>
       if jstype_eqb (typeof h input) TyString then Ok (input, h)
       else if isArray h input then
         match input with
         | VRef a =>
             (let* _ := fill_elements host (fill host n) n a 0 data ign cp in
              ret input) h
         | _ => Ok (input, h)
         end
       else
         match entries h input with
         | Some es =>
             (let* es' := fill_entries host (fill host n) es data ign cp in
              alloc (OObject (fromEntries es'))) h
         | None => Throw TypeError
         end) h1.
Proof.
  intros W P R. cbn [fill]. unfold fill_body at 1. unfold walkable in W. rewrite W.
  cbn [negb]. unfold bind at 1. rewrite P.
  unfold bind at 1. unfold resolve. rewrite R. reflexivity.
Qed.

(** What is neither a descriptor nor a compact string parses to the
    empty object, whose path is [undefined] and resolves to [undefined]. *)
Lemma fill_root_empty n input data ign cp h :
  walkable h input = true ->
  parsePathObject input h = Ok (VRef (length h), h ++ [OObject []]) ->
  fill host (S n) input data ign cp h =
    (fun h =>
       if jstype_eqb (typeof h input) TyString then Ok (input, h)
       else if isArray h input then
         match input with
         | VRef a =>
             (let* _ := fill_elements host (fill host n) n a 0 data ign cp in
              ret input) h
         | _ => Ok (input, h)
         end
       else
         match entries h input with
         | Some es =>
             (let* es' := fill_entries host (fill host n) es data ign cp in
              alloc (OObject (fromEntries es'))) h
         | None => Throw TypeError
         end) (h ++ [OObject []]).
Proof.
  intros W P.
  rewrite (fill_root n input data ign cp h _ _ VUndefined W P)
    by (rewrite get_fresh; reflexivity).
  unfold bind at 1. unfold tryMakeReferenceable.
  assert (V : isValidPathObject (h ++ [OObject []]) (VRef (length h)) = false).
  { unfold isValidPathObject. rewrite !get_fresh. reflexivity. }
  rewrite V. reflexivity.
Qed.

Section Resolution.
Variable F : value -> value -> list value -> list segment -> M value.

Lemma tmr_invalid obj resolved data h :
  isValidPathObject h obj = false ->
  tryMakeReferenceable host F obj resolved data h = Ok (NOT_REFERENCEABLE, h).
Proof. intros V. unfold tryMakeReferenceable. now rewrite V. Qed.

Lemma tmr_undefined obj data h :
  isValidPathObject h obj = true ->
  tryMakeReferenceable host F obj VUndefined data h
  = Throw (NotAccessible (subject h obj)).
Proof. intros V. unfold tryMakeReferenceable. rewrite V. reflexivity. Qed.

Lemma tmr_plain obj resolved data h :
  isValidPathObject h obj = true ->
  is_undefined resolved = false ->
  isCallable h resolved = false ->
  tryMakeReferenceable host F obj resolved data h
  = if truthy (getDef (get h obj "call") (VBool false))
    then Throw (NotCallable (subject h obj))
    else Ok (REFERENCABLE (await host resolved), h).
Proof.
  intros V U C. unfold tryMakeReferenceable. rewrite V. cbn [negb].
  unfold bind, pathObjectExpressesSymbol. rewrite U, C. cbn [negb andb].
  destruct (truthy (getDef (get h obj "call") (VBool false))); [reflexivity |].
  cbn [negb]. rewrite C. reflexivity.
Qed.

(** An effective call of [false] is a defined, falsy [call]. *)
Lemma uncalled_not_requested call :
  truthy (getDef call (VBool true)) = false ->
  truthy (getDef call (VBool false)) = false.
Proof. destruct call; cbn; congruence. Qed.

Lemma tmr_uncalled obj resolved data h :
  isValidPathObject h obj = true ->
  isCallable h resolved = true ->
  truthy (getDef (get h obj "call") (VBool true)) = false ->
  tryMakeReferenceable host F obj resolved data h
  = Ok (REFERENCABLE (await host resolved), h).
Proof.
  intros V C E. unfold tryMakeReferenceable. rewrite V. cbn [negb].
  unfold bind, pathObjectExpressesSymbol.
  assert (U : is_undefined resolved = false)
    by (destruct resolved; try discriminate; reflexivity).
  rewrite U, C, (uncalled_not_requested _ E). cbn [negb andb].
  rewrite C, E. reflexivity.
Qed.
End Resolution.
End WalkerFacts.

Section WalkerFacts2.
Variable host : Host.
Variable F : value -> value -> list value -> list segment -> M value.

Lemma pes_call_unset obj resolved h :
  is_undefined resolved = false ->
  get h obj "call" = VUndefined ->
  pathObjectExpressesSymbol obj resolved h = Ok (true, h).
Proof.
  intros U C. unfold pathObjectExpressesSymbol. rewrite U, C. cbn.
  now rewrite !andb_false_r.
Qed.

Lemma pes_call_true obj resolved h :
  isCallable h resolved = true ->
  get h obj "call" = VBool true ->
  pathObjectExpressesSymbol obj resolved h
  = if strict_eq (providedLength h obj) (requiredLength h resolved)
    then Ok (true, h)
    else Throw (WrongArity (subject h obj) (providedLength h obj)
                           (requiredLength h resolved)).
Proof.
  intros C T. unfold pathObjectExpressesSymbol.
  assert (U : is_undefined resolved = false)
    by (destruct resolved; try discriminate; reflexivity).
  rewrite U, C, T. cbn.
  now destruct (strict_eq _ _).
Qed.


Lemma tmr_invoked obj resolved data h :
  isValidPathObject h obj = true ->
  isCallable h resolved = true ->
  pathObjectExpressesSymbol obj resolved h = Ok (true, h) ->
  truthy (getDef (get h obj "call") (VBool true)) = true ->
  tryMakeReferenceable host F obj resolved data h =
    (let* _ := (if nested obj h
                then let* filled := F (get h obj "parameters") data [] [] in
                     store_prop obj "parameters" filled
                else ret tt) in
     fun h => Ok (REFERENCABLE (accessor host obj resolved h), h)) h.
Proof.
  intros V C P E. unfold tryMakeReferenceable. rewrite V. cbn [negb].
  unfold bind at 1. rewrite P. cbn [negb]. rewrite C, E. cbn [negb].
  unfold nested, accessor, bind.
  destruct (_ && _ && _).
  - destruct (F _ _ _ _ h) as [[v h2] | | |]; try reflexivity.
    destruct (store_prop _ _ _ h2) as [[u h3] | | |]; try reflexivity.
    now destruct (isFunction h3 resolved).
  - unfold ret. now destruct (isFunction h resolved).
Qed.
End WalkerFacts2.

Section WalkerFacts3.
Variable host : Host.

Lemma empty_object_invalid (h : heap) :
  isValidPathObject (h ++ [OObject []]) (VRef (length h)) = false.
Proof.
  unfold isValidPathObject. rewrite !get_fresh. reflexivity.
Qed.

Lemma descriptor_no_nesting (h : heap) a b c :
  get (h ++ [descriptor a b c]) (VRef (length h)) "supportsNested" = VUndefined.
Proof. unfold descriptor. rewrite get_fresh. reflexivity. Qed.

(** What a string parses to never asks for nested resolution. *)
Lemma parsed_string_flat h s p h1 :
  parsePathObject (VStr s) h = Ok (p, h1) ->
  get h1 p "supportsNested" = VUndefined.
Proof.
  destruct (isShortHand (VStr s)) eqn:S.
  - rewrite (parsePathObject_shorthand h s S). cbv zeta.
    destruct (_ !! 1) as [text |].
    + destruct (String.eqb text EmptyString).
      * intros [= <- <-]. apply descriptor_no_nesting.
      * unfold bind, JSON_parse, alloc.
        destruct (Json.parse text) as [j |]; [| discriminate].
        destruct (reify j h) as [v h2].
        intros [= <- <-]. apply descriptor_no_nesting.
    + intros [= <- <-]. apply descriptor_no_nesting.
  - unfold parsePathObject. rewrite string_never_valid, S.
    intros [= <- <-]. rewrite get_fresh. reflexivity.
Qed.

(** A descriptor that parsed to a valid one is a string or an object:
    the walker looks at it. *)
Lemma parsed_valid_walkable h input p h1 :
  parsePathObject input h = Ok (p, h1) ->
  isValidPathObject h1 p = true ->
  walkable h input = true.
Proof.
  intros P V. destruct (isValidPathObject h input) eqn:Vi.
  - destruct (valid_is_object h input Vi) as (l & props & -> & E).
    unfold walkable. simpl. now rewrite E.
  - destruct (isShortHand input) eqn:S.
    + destruct (shorthand_is_string input S) as [s ->]. reflexivity.
    + unfold parsePathObject in P. rewrite Vi, S in P.
      injection P as <- <-. now rewrite empty_object_invalid in V.
Qed.

Lemma valid_subject h obj :
  isValidPathObject h obj = true -> subject h obj = get h obj "path".
Proof.
  unfold isValidPathObject, subject, or_else. intros V.
  repeat (apply andb_prop in V as [V ?]).
  match goal with H : truthy (get h obj "path") = true |- _ => now rewrite H end.
Qed.
End WalkerFacts3.

Lemma positive_truthy h v : is_positive (get h v "length") = true -> truthy v = true.
Proof.
  destruct v as [| | b | m | s | l]; try discriminate.
  - destruct s; [discriminate | reflexivity].
  - reflexivity.
Qed.

Lemma parsed_structured_nested h input p h1 :
  isValidPathObject h input = true ->
  parsePathObject input h = Ok (p, h1) ->
  get h1 p "supportsNested" = VBool true.
Proof.
  intros V P. destruct (valid_is_object h input V) as (l & props & -> & E).
  unfold parsePathObject in P. rewrite V in P. unfold entries in P. rewrite E in P.
  injection P as <- <-. rewrite get_fresh. now rewrite assoc_set_prop_eq.
Qed.

Lemma fill_invoked (host : Host) n input data ign cp h p h1 resolved :
  parsePathObject input h = Ok (p, h1) ->
  isValidPathObject h1 p = true ->
  tryResolveDotPath h1 (get h1 p "path") data = Some resolved ->
  isCallable h1 resolved = true ->
  pathObjectExpressesSymbol p resolved h1 = Ok (true, h1) ->
  truthy (getDef (get h1 p "call") (VBool true)) = true ->
  fill host (S n) input data ign cp h =
    (let* _ := (if nested p h1
                then let* filled := fill host n (get h1 p "parameters") data [] [] in
                     store_prop p "parameters" filled
                else ret tt) in
     invoke_target host p resolved) h1.
Proof.
  intros P V R C X E.
  rewrite (fill_root host n input data ign cp h p h1 resolved
             (parsed_valid_walkable h input p h1 P V) P R).
  unfold bind at 1.
  rewrite (tmr_invoked host _ p resolved data h1 V C X E).
  unfold bind.
  destruct (if nested p h1 then _ else _) as [[u h2] | | |]; reflexivity.
Qed.

(** An invoked target: the parameters of a structured descriptor are
    walked first, those of a string are passed as decoded. *)
Lemma parameters_walked (host : Host) n input data ign cp h p h1 resolved :
  parsePathObject input h = Ok (p, h1) ->
  isValidPathObject h1 p = true ->
  tryResolveDotPath h1 (get h1 p "path") data = Some resolved ->
  isCallable h1 resolved = true ->
  pathObjectExpressesSymbol p resolved h1 = Ok (true, h1) ->
  truthy (getDef (get h1 p "call") (VBool true)) = true ->
  (isValidPathObject h input = true ->
   is_positive (get h1 (get h1 p "parameters") "length") = true ->
   fill host (S n) input data ign cp h =
     (let* filled := fill host n (get h1 p "parameters") data [] [] in
      let* _ := store_prop p "parameters" filled in
      invoke_target host p resolved) h1)
  /\ (forall s, input = VStr s ->
      fill host (S n) input data ign cp h = invoke_target host p resolved h1).
Proof.
  intros P V R C X E.
  rewrite (fill_invoked host n input data ign cp h p h1 resolved P V R C X E).
  unfold nested. split.
  - intros Vi L.
    rewrite (parsed_structured_nested h input p h1 Vi P), L,
      (positive_truthy h1 _ L).
    cbn [truthy andb]. unfold bind.
    destruct (fill host n _ data [] [] h1) as [[v h2] | | |]; reflexivity.
  - intros s ->. rewrite (parsed_string_flat h s p h1 P).
    reflexivity.
Qed.

End WalkerFacts.

Import WalkerFacts.

(** ** References to primitives, in arrays and mappings *)

Module ReferenceFacts.
Import StrFacts.

Lemma primitive_plain h v :
  primitive v = true -> is_undefined v = false /\ isCallable h v = false.
Proof. destruct v; try discriminate; auto. Qed.

(** Awaiting what is no thenable gives it back. *)
Lemma await_plain (host : Host) v (h : heap) :
  thenable h v = None -> await host v h = Ok (v, h).
Proof. intros T. unfold await. now rewrite T. Qed.

Lemma primitive_await (host : Host) v (h : heap) :
  primitive v = true -> await host v h = Ok (v, h).
Proof. intros P. apply await_plain. destruct v; try discriminate; reflexivity. Qed.

(** A function and an array own no [then]. *)
Lemma callable_await (host : Host) v (h : heap) :
  isCallable h v = true -> await host v h = Ok (v, h).
Proof.
  intros C. apply await_plain. unfold thenable, get.
  destruct v as [| | b | m | s | l]; try discriminate.
  unfold isCallable, typeof in C.
  destruct (h !! l) as [[| |] |]; try discriminate. reflexivity.
Qed.

Lemma array_await (host : Host) a elems (h : heap) :
  h !! a = Some (OArray elems) -> await host (VRef a) h = Ok (VRef a, h).
Proof. intros A. apply await_plain. unfold thenable, get. now rewrite A. Qed.

Lemma fill_plain_target (host : Host) n input data ign cp h p h1 resolved :
  parsePathObject input h = Ok (p, h1) ->
  isValidPathObject h1 p = true ->
  tryResolveDotPath h1 (get h1 p "path") data = Some resolved ->
  is_undefined resolved = false ->
  isCallable h1 resolved = false ->
  fill host (S n) input data ign cp h
  = if truthy (getDef (get h1 p "call") (VBool false))
    then Throw (NotCallable (get h1 p "path"))
    else await host resolved h1.
Proof.
  intros P V R U C.
  rewrite (fill_root host n input data ign cp h p h1 resolved
             (parsed_valid_walkable h input p h1 P V) P R).
  unfold bind.
  rewrite (tmr_plain host _ p resolved data h1 V U C).
  rewrite (valid_subject h1 p V).
  now destruct (truthy _).
Qed.

(** The descriptor of a bare reference, in the heap it was allocated in. *)
Lemma bare_descriptor (h : heap) k :
  path_field k = true ->
  let h1 := h ++ [descriptor (VStr k) VUndefined VUndefined] in
  let p := VRef (length h) in
  isValidPathObject h1 p = true /\
  get h1 p "path" = VStr k /\ get h1 p "call" = VUndefined.
Proof.
  intros K. cbv zeta. unfold isValidPathObject, descriptor.
  rewrite !get_fresh. cbn.
  apply andb_prop in K as [K _]. rewrite K. auto.
Qed.

(** An own key of the data map resolves to its value. *)
Lemma resolve_own h d dprops k v (x : heap) :
  avoids ["."%char] k = true ->
  h !! d = Some (OObject dprops) ->
  assoc k dprops = Some v ->
  tryResolveDotPath (h ++ x) (VStr k) (VRef d) = Some v.
Proof.
  intros A D O. unfold tryResolveDotPath.
  rewrite (split_whole "." k A). cbn [fold_left truthy].
  unfold read, own. now rewrite (lookup_app_l_Some _ _ _ _ D), O.
Qed.

Lemma resolve_key h d dprops k (x : heap) :
  avoids ["."%char] k = true ->
  h !! d = Some (OObject dprops) ->
  primitive (lookup_in dprops k) = true ->
  tryResolveDotPath (h ++ x) (VStr k) (VRef d) = Some (lookup_in dprops k).
Proof.
  intros A D Pv. unfold lookup_in in *.
  destruct (assoc k dprops) as [v |] eqn:O; [| discriminate].
  now apply (resolve_own h d dprops k v x).
Qed.

(** A key that the data map does not own and [Object.prototype] does not
    hold resolves to [undefined]. *)
Lemma resolve_missing h d dprops k (x : heap) :
  avoids ["."%char] k = true ->
  h !! d = Some (OObject dprops) ->
  assoc k dprops = None ->
  existsb (String.eqb k) object_prototype_names = false ->
  tryResolveDotPath (h ++ x) (VStr k) (VRef d) = Some VUndefined.
Proof.
  intros A D O I. unfold tryResolveDotPath.
  rewrite (split_whole "." k A). cbn [fold_left truthy].
  unfold read, own, may_inherit.
  now rewrite (lookup_app_l_Some _ _ _ _ D), O, I.
Qed.

Lemma fill_reference (host : Host) n k d dprops ign cp (h : heap) :
  resolvable dprops k = true ->
  h !! d = Some (OObject dprops) ->
  fill host (S n) (reference k) (VRef d) ign cp h
  = Ok (lookup_in dprops k, h ++ [descriptor (VStr k) VUndefined VUndefined]).
Proof.
  intros R D. unfold resolvable in R.
  apply andb_prop in R as [R Pv]. apply andb_prop in R as [K A].
  destruct (primitive_plain (h ++ [descriptor (VStr k) VUndefined VUndefined]) _ Pv) as [U C].
  destruct (bare_descriptor h k K) as (V & Gp & Gc).
  assert (P : parsePathObject (reference k) h
              = Ok (VRef (length h), h ++ [descriptor (VStr k) VUndefined VUndefined])).
  { unfold reference. rewrite (parse_compact h k None None K); [reflexivity |].
    intros b [=]. }
  rewrite (fill_plain_target host n _ _ ign cp h _ _ (lookup_in dprops k) P V); auto.
  - rewrite Gc. cbn [getDef is_undefined truthy]. now apply primitive_await.
  - rewrite Gp. now apply resolve_key.
Qed.

Lemma not_ignored cp : isIgnored [] cp = false.
Proof. reflexivity. Qed.

Lemma pop_push cp s : pop (push cp s) = cp.
Proof. unfold pop, push. apply removelast_last. Qed.

Lemma array_set_middle (done rest : list value) e v :
  array_set (done ++ e :: rest) (length done) v = done ++ v :: rest.
Proof.
  unfold array_set.
  assert (L : (length done <? length (done ++ e :: rest))%nat = true).
  { apply Nat.ltb_lt. rewrite List.length_app. simpl. lia. }
  rewrite L. rewrite insert_app_r_alt by lia. now rewrite Nat.sub_diag.
Qed.

Section InPlace.
Variable host : Host.
Variables (a d : loc) (dprops : list (string * value)).
Hypothesis distinct : a <> d.

Lemma fill_elements_references n m ks : forall done cp (h : heap),
  h !! a = Some (OArray (done ++ map reference ks)) ->
  h !! d = Some (OObject dprops) ->
  forallb (resolvable dprops) ks = true ->
  (length ks <= m)%nat ->
  exists h',
    fill_elements host (fill host (S n)) m a (length done) (VRef d) [] cp h
    = Ok (tt, h') /\
    h' !! a = Some (OArray (done ++ map (lookup_in dprops) ks)) /\
    (forall l, (l < length h)%nat -> l <> a -> h' !! l = h !! l) /\
    (length h <= length h')%nat.
Proof.
  revert m. induction ks as [| k ks IH]; intros m done cp h A D R L.
  - exists h. simpl in *. rewrite app_nil_r in *.
    split; [| auto].
    destruct m; simpl; rewrite A, (lookup_ge_None_2 done (length done)); auto.
  - simpl in R. apply andb_prop in R as [Rk Rks].
    destruct m as [| m]; [simpl in L; lia |].
    simpl in L. cbn [fill_elements]. rewrite A.
    cbn [map]. rewrite list_lookup_middle by reflexivity.
    rewrite not_ignored. cbn [negb]. rewrite pop_push.
    unfold bind at 1. unfold bind at 1.
    rewrite (fill_reference host n k d dprops [] cp h Rk D).
    set (h1 := h ++ [descriptor (VStr k) VUndefined VUndefined]).
    rewrite (primitive_await host _ h1)
      by (unfold resolvable in Rk; now apply andb_prop in Rk as [_ ?]).
    assert (A1 : h1 !! a = Some (OArray (done ++ reference k :: map reference ks)))
      by (apply lookup_app_l_Some, A).
    unfold bind at 1. unfold store_elem at 1. rewrite A1.
    rewrite array_set_middle.
    set (h2 := <[a := OArray (done ++ lookup_in dprops k :: map reference ks)]> h1).
    assert (La : (a < length h1)%nat) by (eapply lookup_lt_Some, A1).
    assert (A2 : h2 !! a = Some (OArray ((done ++ [lookup_in dprops k]) ++ map reference ks))).
    { unfold h2. rewrite list_lookup_insert_eq by exact La.
      now rewrite <- app_assoc. }
    assert (D2 : h2 !! d = Some (OObject dprops)).
    { unfold h2. rewrite list_lookup_insert_ne by exact distinct.
      apply lookup_app_l_Some, D. }
    destruct (IH m (done ++ [lookup_in dprops k]) cp h2 A2 D2 Rks ltac:(lia))
      as (h' & E & A' & O & G).
    exists h'.
    replace (length (done ++ [lookup_in dprops k])) with (S (length done)) in E
      by (rewrite List.length_app; simpl; lia).
    split; [exact E |]. split; [| split].
    + rewrite A'. now rewrite <- app_assoc.
    + intros l Ll Na.
      assert (L2 : length h2 = S (length h))
        by (unfold h2, h1; rewrite length_insert, List.length_app; simpl; lia).
      rewrite O by lia.
      unfold h2. rewrite list_lookup_insert_ne by congruence.
      unfold h1. now rewrite lookup_app_l.
    + assert (L2 : length h2 = S (length h))
        by (unfold h2, h1; rewrite length_insert, List.length_app; simpl; lia).
      lia.
Qed.
End InPlace.

Lemma array_invalid h a elems :
  h !! a = Some (OArray elems) -> isValidPathObject h (VRef a) = false.
Proof.
  intros A. unfold isValidPathObject, get. rewrite A. reflexivity.
Qed.

Lemma fill_array_references (host : Host) n a d dprops ks cp (h : heap) :
  a <> d ->
  h !! a = Some (OArray (map reference ks)) ->
  h !! d = Some (OObject dprops) ->
  forallb (resolvable dprops) ks = true ->
  (length ks <= S n)%nat ->
  exists h',
    fill host (S (S n)) (VRef a) (VRef d) [] cp h = Ok (VRef a, h') /\
    h' !! a = Some (OArray (map (lookup_in dprops) ks)) /\
    (forall l, (l < length h)%nat -> l <> a -> h' !! l = h !! l).
Proof.
  intros N A D R L.
  set (h1 := h ++ [OObject []]).
  assert (A1 : h1 !! a = Some (OArray ([] ++ map reference ks)))
    by (apply lookup_app_l_Some, A).
  assert (D1 : h1 !! d = Some (OObject dprops))
    by (apply lookup_app_l_Some, D).
  destruct (fill_elements_references host a d dprops N n (S n) ks [] cp h1 A1 D1 R L)
    as (h' & E & A' & O & G).
  exists h'. split; [| split].
  - rewrite (fill_root host (S n) (VRef a) (VRef d) [] cp h (VRef (length h)) h1 VUndefined).
    + unfold bind at 1.
      rewrite (tmr_invalid host _ _ _ _ _ (empty_object_invalid h)).
      cbn [isReferenceable NOT_REFERENCEABLE].
      fold h1. cbn [typeof isArray]. rewrite A1. cbn [jstype_eqb].
      unfold bind. simpl length in E. rewrite E. reflexivity.
    + unfold walkable. simpl. now rewrite A.
    + unfold parsePathObject. rewrite (array_invalid h a _ A). reflexivity.
    + unfold h1. now rewrite get_fresh.
  - exact A'.
  - intros l Ll Na. rewrite O; [| unfold h1; rewrite List.length_app; simpl; lia | exact Na].
    unfold h1. now rewrite lookup_app_l.
Qed.

Lemma fill_entries_references (host : Host) F d dprops es : forall cp (h : heap),
  h !! d = Some (OObject dprops) ->
  forallb (fun e => resolvable dprops (snd e)) es = true ->
  exists x,
    fill_entries host F (map reference_entry es) (VRef d) [] cp h
    = Ok (map (resolved_entry dprops) es, h ++ x).
Proof.
  induction es as [| [key k] es IH]; intros cp h D R.
  - exists []. simpl. now rewrite app_nil_r.
  - simpl in R. apply andb_prop in R as [Rk Rs].
    cbn [map reference_entry fst snd fill_entries].
    rewrite not_ignored. cbn [negb].
    pose proof Rk as Rk'. unfold resolvable in Rk'.
    apply andb_prop in Rk' as [Rk' Pv]. apply andb_prop in Rk' as [K A].
    set (h1 := h ++ [descriptor (VStr k) VUndefined VUndefined]).
    destruct (primitive_plain h1 _ Pv) as [U C].
    destruct (bare_descriptor h k K) as (V & Gp & Gc). fold h1 in V, Gp, Gc.
    assert (P : parsePathObject (reference k) h = Ok (VRef (length h), h1)).
    { unfold reference. rewrite (parse_compact h k None None K); [reflexivity |].
      intros b [=]. }
    unfold bind at 1. unfold bind at 1. unfold bind at 1. rewrite P.
    unfold bind at 1. unfold resolve at 1.
    rewrite Gp. unfold or_else. cbn [truthy].
    apply andb_prop in K as [Kne _]. rewrite Kne.
    unfold h1 at 1. rewrite (resolve_key h d dprops k _ A D Pv). fold h1.
    unfold bind at 1.
    rewrite (tmr_plain host F _ _ (VRef d) h1 V U C), Gc.
    cbn [getDef is_undefined truthy isReferenceable REFERENCABLE].
    unfold bind at 1. cbn [dereference getReference REFERENCABLE].
    rewrite (primitive_await host _ h1 Pv). cbn [ret].
    destruct (IH cp h1 (lookup_app_l_Some _ _ _ _ D) Rs) as (x & E).
    unfold bind. cbn [ret]. rewrite E.
    exists ([descriptor (VStr k) VUndefined VUndefined] ++ x).
    unfold h1. now rewrite <- app_assoc.
Qed.

Lemma fill_mapping_references (host : Host) n l d dprops es cp (h : heap) :
  h !! l = Some (OObject (map reference_entry es)) ->
  isValidPathObject h (VRef l) = false ->
  h !! d = Some (OObject dprops) ->
  forallb (fun e => resolvable dprops (snd e)) es = true ->
  exists x,
    fill host (S n) (VRef l) (VRef d) [] cp h
    = Ok (VRef (length (h ++ x)),
          (h ++ x) ++ [OObject (fromEntries (map (resolved_entry dprops) es))]).
Proof.
  intros A Vi D R.
  set (h1 := h ++ [OObject []]).
  assert (A1 : h1 !! l = Some (OObject (map reference_entry es)))
    by (apply lookup_app_l_Some, A).
  destruct (fill_entries_references host (fill host n) d dprops es cp h1
              (lookup_app_l_Some _ _ _ _ D) R) as (x & E).
  exists ([OObject []] ++ x).
  rewrite (fill_root host n (VRef l) (VRef d) [] cp h (VRef (length h)) h1 VUndefined).
  - unfold bind at 1.
    rewrite (tmr_invalid host _ _ _ _ _ (empty_object_invalid h)).
    cbn [isReferenceable NOT_REFERENCEABLE]. fold h1.
    cbn [typeof isArray entries]. rewrite A1. cbn [jstype_eqb].
    unfold bind. rewrite E. unfold alloc, h1. now rewrite <- !app_assoc.
  - unfold walkable. simpl. now rewrite A.
  - unfold parsePathObject. now rewrite Vi.
  - unfold h1. now rewrite get_fresh.
Qed.

(** The walk of an array: after the attempt to read it as a descriptor,
    which leaves an empty object behind, the loop over its elements. *)
Lemma fill_array_loop (host : Host) n a elems data ign cp (h : heap) :
  h !! a = Some (OArray elems) ->
  fill host (S n) (VRef a) data ign cp h
  = (let* _ := fill_elements host (fill host n) n a 0 data ign cp in
     ret (VRef a)) (h ++ [OObject []]).
Proof.
  intros E.
  rewrite (fill_root host n (VRef a) data ign cp h
             (VRef (length h)) (h ++ [OObject []]) VUndefined).
  - unfold bind at 1.
    rewrite (tmr_invalid host _ _ _ _ _ (empty_object_invalid h)).
    cbn [isReferenceable NOT_REFERENCEABLE].
    cbn [typeof isArray]. rewrite (lookup_app_l_Some _ _ _ _ E).
    reflexivity.
  - unfold walkable. simpl. now rewrite E.
  - unfold parsePathObject. rewrite (array_invalid h a _ E). reflexivity.
  - now rewrite get_fresh.
Qed.

(** One turn of the loop: the element at the index goes through the
    walker, with the data map and the ignored paths of the array, the
    call is awaited, and the result is written back at the index. *)
Lemma fill_elements_step host F m a i elems e data ign cp (h : heap) :
  h !! a = Some (OArray elems) ->
  elems !! i = Some e ->
  isIgnored ign (push cp (Idx i)) = false ->
  fill_elements host F (S m) a i data ign cp h
  = (let* res := (let* r := F e data ign cp in await host r) in
     let* _ := store_elem a i res in
     fill_elements host F m a (S i) data ign cp) h.
Proof.
  intros A E I. cbn [fill_elements]. rewrite A, E, I. cbn [negb].
  now rewrite pop_push.
Qed.

(** Whatever an array is filled with, [fill] hands back the same array. *)
Lemma fill_array_same_reference (host : Host) n a data ign cp (h : heap) v h' :
  isArray h (VRef a) = true ->
  fill host n (VRef a) data ign cp h = Ok (v, h') ->
  v = VRef a.
Proof.
  intros A. destruct n as [| n]; [discriminate |].
  assert (E : exists elems, h !! a = Some (OArray elems)).
  { simpl in A. destruct (h !! a) as [[elems | |] |]; try discriminate. eauto. }
  destruct E as [elems E].
  rewrite (fill_root host n (VRef a) data ign cp h (VRef (length h)) (h ++ [OObject []]) VUndefined).
  - unfold bind at 1.
    rewrite (tmr_invalid host _ _ _ _ _ (empty_object_invalid h)).
    cbn [isReferenceable NOT_REFERENCEABLE].
    cbn [typeof isArray]. rewrite (lookup_app_l_Some _ _ _ _ E). cbn [jstype_eqb].
    unfold bind.
    destruct (fill_elements _ _ _ _ _ _ _ _) as [[u h2] | | |]; try discriminate.
    now intros [= <- _].
  - unfold walkable. simpl. now rewrite E.
  - unfold parsePathObject. rewrite (array_invalid h a _ E). reflexivity.
  - now rewrite get_fresh.
Qed.

End ReferenceFacts.

Import ReferenceFacts.

(** ** Further examples of the specification *)

(** A path that resolves to nothing aborts the walk. *)
Example fill_missing_path (host : Host) (n : nat) :
  fill host (S n) (VStr "{nope.nope}") (VRef 0) [] [] [OObject []]
  = Throw (NotAccessible (VStr "nope.nope")).
Proof. vm_compute. reflexivity. Qed.

(** A class is instantiated with the parameters. *)
Example fill_instantiates_class (n : nat) :
  fill Demo.host (S n) (VStr "{C;[5]}") (VRef 1) [] [] Demo.heap_class
  = Ok (VRef 4,
        Demo.heap_class
          ++ [OArray [VInt 5]; descriptor (VStr "C") (VRef 2) VUndefined;
              OObject [("n", VInt 5)]]).
Proof. vm_compute. reflexivity. Qed.

(** A target that is a thenable is adopted: with the data map
    [{t: {then: f}}] and the descriptor [{path: "t", call: false}], what
    [fill] gives is what the promise that adopts [t] settles to. *)
Example fill_adopts_thenable_target (host : Host) (n : nat) :
  fill host (S n) (VRef 3) (VRef 2) [] []
    [OFunction Demo.one; OObject [("then", VRef 0)]; OObject [("t", VRef 1)];
     OObject [("path", VStr "t"); ("call", VBool false)]]
  = adopt host Demo.one (VRef 1)
      [OFunction Demo.one; OObject [("then", VRef 0)]; OObject [("t", VRef 1)];
       OObject [("path", VStr "t"); ("call", VBool false)];
       OObject [("path", VStr "t"); ("call", VBool false);
                ("supportsNested", VBool true)]].
Proof. vm_compute. reflexivity. Qed.

(** A path that goes up a built-in prototype has no result in the
    model: the data map [{}] inherits [toString]. *)
Example fill_inherited_name (host : Host) (n : nat) :
  tryResolveDotPath [OObject []] (VStr "toString") (VRef 0) = None /\
  fill host (S n) (VStr "{toString}") (VRef 0) [] [] [OObject []] = Unmodelled.
Proof. split; vm_compute; reflexivity. Qed.

(** * The statements of the specification *)

(** C1, as stated, fails: a string of the compact shape whose parameters
    field is not JSON makes [parsePathObject] raise a [SyntaxError]. *)
Lemma parsePathObject_raises_on_undecodable_parameters :
  isShortHand (VStr "{a;[x]}") = true /\
  parsePathObject (VStr "{a;[x]}") [] = Throw SyntaxError.
Proof. split; reflexivity. Qed.

(** C1, amended: [parsePathObject] returns the empty descriptor for a
    candidate that is neither a valid structured descriptor nor a string
    of the compact shape; it never runs out of fuel and raises nothing
    but a [SyntaxError]; and it raises that one exactly on a string of
    the compact shape whose second field is not empty and is not a JSON
    text. *)
Theorem parsePathObject_outcome (h : heap) (obj : value) :
  (isValidPathObject h obj = false -> isShortHand obj = false ->
   parsePathObject obj h = Ok (VRef (length h), h ++ [OObject []]))
  /\ ((exists l h', parsePathObject obj h = Ok (VRef l, h'))
      \/ parsePathObject obj h = Throw SyntaxError)
  /\ (parsePathObject obj h = Throw SyntaxError <->
      isValidPathObject h obj = false /\
      exists s text,
        obj = VStr s /\ isShortHand obj = true /\
        Str.split ";" (Str.slice s 1 (-1)) !! 1 = Some text /\
        text <> EmptyString /\ Json.parse text = None).
Proof.
  split; [| destruct (isValidPathObject h obj) eqn:V].
  - intros V S. unfold parsePathObject. now rewrite V, S.
  - destruct (valid_is_object h obj V) as (l & props & -> & E).
    pose proof (parse_valid h l props E V) as P.
    split; [left; eauto |].
    rewrite P. split; [discriminate | intros [? _]; discriminate].
  - destruct (isShortHand obj) eqn:S.
    + destruct (shorthand_is_string obj S) as [s ->].
      rewrite (parsePathObject_shorthand h s S). cbv zeta.
      destruct (Str.split ";" (Str.slice s 1 (-1)) !! 1) as [text |] eqn:F.
      * destruct (String.eqb text EmptyString) eqn:T.
        { apply String.eqb_eq in T. subst text.
          split; [left; eauto |].
          split; [discriminate |].
          intros (_ & s' & text & [= <-] & _ & F' & N & _). congruence. }
        apply String.eqb_neq in T.
        unfold bind, JSON_parse, alloc.
        destruct (Json.parse text) as [j |] eqn:J.
        { destruct (reify j h) as [v h1].
          split; [left; eauto |].
          split; [discriminate |].
          intros (_ & s' & text' & [= <-] & _ & F' & _ & N). congruence. }
        split; [now right |].
        split; [| reflexivity].
        intros _. split; [reflexivity |]. exists s, text. auto.
      * split; [left; eauto |].
        split; [discriminate |].
        intros (_ & s' & text & [= <-] & _ & F' & _). congruence.
    + unfold parsePathObject. rewrite V, S.
      split; [left; eauto |].
      split; [discriminate |].
      intros (_ & s & text & _ & S' & _). congruence.
Qed.

Lemma parsePathObject_outcome_witness :
  isValidPathObject [] (VStr "{a") = false /\
  isShortHand (VStr "{a") = false /\
  parsePathObject (VStr "{a") [] = Ok (VRef 0, [OObject []]).
Proof.
  split; [reflexivity |]. split; [reflexivity |].
  apply (proj1 (parsePathObject_outcome [] (VStr "{a"))); reflexivity.
Defined.

(** C2: [fill] on [null] does not return it: [typeof null] is ['object'],
    so the walker goes on to [Object.entries(null)], which raises a
    [TypeError]; the same happens for a [null] inside a mapping. Every
    value whose [typeof] is neither ['string'] nor ['object'] is returned
    unchanged, in an unchanged heap. *)
Theorem fill_null_raises (host : Host) (n : nat) :
  (forall data ign cp (h : heap),
     fill host (S n) VNull data ign cp h = Throw TypeError)
  /\ fill host (S (S n)) (VRef 1) (VRef 0) [] [] Demo.heap_null
     = Throw TypeError
  /\ (forall v data ign cp (h : heap),
        walkable h v = false ->
        fill host (S n) v data ign cp h = Ok (v, h)).
Proof.
  split; [| split].
  - intros data ign cp h.
    rewrite (fill_root host n VNull data ign cp h
               (VRef (length h)) (h ++ [OObject []]) VUndefined);
      [| reflexivity | reflexivity | now rewrite get_fresh].
    unfold bind.
    rewrite (tmr_invalid host _ _ _ data _ (empty_object_invalid h)).
    reflexivity.
  - vm_compute. reflexivity.
  - intros v data ign cp h W. now apply fill_plain.
Qed.

Lemma fill_null_raises_witness :
  walkable [] (VInt 7) = false /\
  fill Demo.host 1 (VInt 7) (VRef 0) [] [] [] = Ok (VInt 7, []).
Proof.
  split; [reflexivity |].
  apply (proj2 (proj2 (fill_null_raises Demo.host 0))). reflexivity.
Defined.

(** C3, as stated, fails: the descriptor [{path: "x", call: false}]
    against [{x: 5}] resolves to a value that is not callable, and [fill]
    returns that value. *)
Lemma call_false_on_plain_target_returns_it :
  get Demo.heap_call (VRef 1) "call" = VBool false /\
  tryResolveDotPath Demo.heap_call (get Demo.heap_call (VRef 1) "path") (VRef 0)
  = Some (VInt 5) /\
  isCallable Demo.heap_call (VInt 5) = false /\
  fill Demo.host 1 (VRef 1) (VRef 0) [] [] Demo.heap_call
  = Ok (VInt 5,
        Demo.heap_call
          ++ [OObject [("path", VStr "x"); ("call", VBool false);
                       ("supportsNested", VBool true)]]).
Proof. repeat split; reflexivity. Qed.

(** C3, amended: when the path of a descriptor resolves to a defined
    value that is not callable, an explicit [call: true] makes [fill]
    fail with the not-callable error, and [call: false] or an unset
    [call] raises no such error: [fill] gives the value as [await] gives
    it, which is the value itself unless it is a thenable, an object
    whose [then] is a function; a thenable is adopted, and [fill] gives
    what its promise settles to. *)
Theorem call_on_plain_target (host : Host) n input data ign cp h p h1 resolved :
  parsePathObject input h = Ok (p, h1) ->
  isValidPathObject h1 p = true ->
  tryResolveDotPath h1 (get h1 p "path") data = Some resolved ->
  is_undefined resolved = false ->
  isCallable h1 resolved = false ->
  (get h1 p "call" = VBool true ->
   fill host (S n) input data ign cp h = Throw (NotCallable (get h1 p "path")))
  /\ (get h1 p "call" = VBool false ->
      fill host (S n) input data ign cp h
      = match thenable h1 resolved with
        | Some f => adopt host f resolved h1
        | None => Ok (resolved, h1)
        end)
  /\ (get h1 p "call" = VUndefined ->
      fill host (S n) input data ign cp h
      = match thenable h1 resolved with
        | Some f => adopt host f resolved h1
        | None => Ok (resolved, h1)
        end).
Proof.
  intros P V R U C.
  rewrite (fill_plain_target host n input data ign cp h p h1 resolved P V R U C).
  repeat split; intros ->; reflexivity.
Qed.

Lemma call_on_plain_target_witness :
  let h1 := Demo.heap_call
              ++ [OObject [("path", VStr "x"); ("call", VBool true);
                           ("supportsNested", VBool true)]] in
  parsePathObject (VRef 2) Demo.heap_call = Ok (VRef 3, h1) /\
  isValidPathObject h1 (VRef 3) = true /\
  tryResolveDotPath h1 (get h1 (VRef 3) "path") (VRef 0) = Some (VInt 5) /\
  is_undefined (VInt 5) = false /\
  isCallable h1 (VInt 5) = false /\
  get h1 (VRef 3) "call" = VBool true /\
  fill Demo.host 1 (VRef 2) (VRef 0) [] [] Demo.heap_call
  = Throw (NotCallable (VStr "x")).
Proof.
  cbv zeta. do 6 (split; [reflexivity |]).
  apply (proj1 (call_on_plain_target Demo.host 0 (VRef 2) (VRef 0) [] []
                  Demo.heap_call (VRef 3) _ (VInt 5)
                  eq_refl eq_refl eq_refl eq_refl eq_refl)).
  reflexivity.
Defined.

(** C4, as stated, fails: the descriptor that [parsePathObject] returns
    for [{path: "a.b", parameters: [1, 2], call: true}] is another object
    than its argument, and it has a field more, [supportsNested]. *)
Lemma parsePathObject_adds_supportsNested :
  exists h',
    parsePathObject (VRef 1) Demo.heap_descriptor = Ok (VRef 2, h') /\
    entries h' (VRef 1)
    = Some [("path", VStr "a.b"); ("parameters", VRef 0); ("call", VBool true)] /\
    entries h' (VRef 2)
    = Some [("path", VStr "a.b"); ("parameters", VRef 0); ("call", VBool true);
            ("supportsNested", VBool true)].
Proof. eexists. repeat split; reflexivity. Qed.

(** C4, amended: for a valid structured descriptor, [parsePathObject]
    returns a new object holding the fields of the descriptor, each with
    its value, and the field [supportsNested] set to [true]; parsing the
    result again gives the same fields once more. *)
Theorem parsePathObject_structured (h : heap) (d : value) :
  isValidPathObject h d = true ->
  exists l props,
    d = VRef l /\ h !! l = Some (OObject props) /\
    let props' := set_prop "supportsNested" (VBool true) props in
    let h' := h ++ [OObject props'] in
    parsePathObject d h = Ok (VRef (length h), h') /\
    assoc "supportsNested" props' = Some (VBool true) /\
    (forall k, k <> "supportsNested" -> assoc k props' = assoc k props) /\
    parsePathObject (VRef (length h)) h'
      = Ok (VRef (length h'), h' ++ [OObject props']).
Proof.
  intros V. destruct (valid_is_object h d V) as (l & props & -> & E).
  exists l, props. split; [reflexivity |]. split; [exact E |].
  cbv zeta. split; [| split; [| split]].
  - now apply parse_valid.
  - apply assoc_set_prop_eq.
  - intros k N. apply assoc_set_prop_ne. congruence.
  - rewrite (parse_valid _ (length h)
               (set_prop "supportsNested" (VBool true) props)).
    + now rewrite set_prop_idem.
    + apply list_lookup_middle. reflexivity.
    + now apply (valid_copy h l props).
Qed.

Lemma parsePathObject_structured_witness :
  isValidPathObject Demo.heap_descriptor (VRef 1) = true /\
  exists l props,
    VRef 1 = VRef l /\ Demo.heap_descriptor !! l = Some (OObject props) /\
    let props' := set_prop "supportsNested" (VBool true) props in
    let h' := Demo.heap_descriptor ++ [OObject props'] in
    parsePathObject (VRef 1) Demo.heap_descriptor
    = Ok (VRef (length Demo.heap_descriptor), h') /\
    assoc "supportsNested" props' = Some (VBool true) /\
    (forall k, k <> "supportsNested" -> assoc k props' = assoc k props) /\
    parsePathObject (VRef (length Demo.heap_descriptor)) h'
      = Ok (VRef (length h'), h' ++ [OObject props']).
Proof.
  split; [reflexivity |].
  apply (parsePathObject_structured Demo.heap_descriptor (VRef 1)). reflexivity.
Defined.

(** C5: with [M = {f: (x, y) => x + y}], [fill] on the compact descriptor
    of [f] with the one parameter [1] does not fail with an arity error:
    [call] is unset, the arity test is guarded by [getDef(obj.call,
    false)], and [f] is invoked with the single argument, giving [NaN].
    With two parameters the result is [3]. In general a descriptor whose
    [call] is unset passes the validation whatever the two counts are;
    the counts are compared, and the arity error raised for too few and
    for too many parameters, only when the descriptor spells [call] out
    as [true]. *)
Theorem arity_unchecked_when_call_unset (host : Host) (n : nat) :
  (forall (h : heap) obj resolved,
     is_undefined resolved = false ->
     get h obj "call" = VUndefined ->
     pathObjectExpressesSymbol obj resolved h = Ok (true, h))
  /\ (forall (h : heap) obj resolved,
        isCallable h resolved = true ->
        get h obj "call" = VBool true ->
        pathObjectExpressesSymbol obj resolved h
        = if strict_eq (providedLength h obj) (requiredLength h resolved)
          then Ok (true, h)
          else Throw (WrongArity (subject h obj) (providedLength h obj)
                                 (requiredLength h resolved)))
  /\ fill host (S n) (VStr "{f;[1]}") (VRef 1) [] [] Demo.heap_add
     = invoke host Demo.add [VInt 1]
         (Demo.heap_add
            ++ [OArray [VInt 1]; descriptor (VStr "f") (VRef 2) VUndefined])
  /\ fill Demo.host (S n) (VStr "{f;[1]}") (VRef 1) [] [] Demo.heap_add
     = Ok (VNum NaN,
           Demo.heap_add
             ++ [OArray [VInt 1]; descriptor (VStr "f") (VRef 2) VUndefined])
  /\ fill Demo.host (S n) (VStr "{f;[1,2]}") (VRef 1) [] [] Demo.heap_add
     = Ok (VInt 3,
           Demo.heap_add
             ++ [OArray [VInt 1; VInt 2];
                 descriptor (VStr "f") (VRef 2) VUndefined])
  /\ fill host (S n) (VStr "{f;[1];true}") (VRef 1) [] [] Demo.heap_add
     = Throw (WrongArity (VStr "f") (VInt 1) (VInt 2))
  /\ fill host (S n) (VStr "{f;[1,2,3];true}") (VRef 1) [] [] Demo.heap_add
     = Throw (WrongArity (VStr "f") (VInt 3) (VInt 2)).
Proof.
  split; [| split].
  - intros h obj resolved U C. now apply pes_call_unset.
  - intros h obj resolved C T. now apply pes_call_true.
  - repeat split; vm_compute; reflexivity.
Qed.

Lemma arity_unchecked_when_call_unset_witness :
  let h := Demo.heap_add
             ++ [OArray [VInt 1]; descriptor (VStr "f") (VRef 2) VUndefined] in
  is_undefined (VRef 0) = false /\
  get h (VRef 3) "call" = VUndefined /\
  providedLength h (VRef 3) = VInt 1 /\
  requiredLength h (VRef 0) = VInt 2 /\
  pathObjectExpressesSymbol (VRef 3) (VRef 0) h = Ok (true, h).
Proof.
  cbv zeta. do 4 (split; [reflexivity |]).
  apply (proj1 (arity_unchecked_when_call_unset Demo.host 0)); reflexivity.
Defined.

(** C6: when a structured descriptor with a non-empty [parameters] array
    resolves to a target that is invoked, [fill] first walks that array
    against the same data map, stores the result back as the parameters,
    and then invokes the target; for a descriptor given as a string the
    target is invoked with the decoded parameters as they are. The walk
    of an array is the loop that passes each element through [fill],
    awaits the call and writes the result back. With
    [M = {inner: () => "7", outer: (n) => Number(n) + 1}], the structured
    descriptor of [outer] whose one parameter is the descriptor of
    [inner] yields [8], and the compact descriptor of [outer] whose one
    parameter is the reference to [inner] as a string hands that string
    to [outer], which yields [NaN]. *)
Theorem parameters_are_walked :
  (forall (host : Host) n input data ign cp h p h1 resolved,
     parsePathObject input h = Ok (p, h1) ->
     isValidPathObject h1 p = true ->
     tryResolveDotPath h1 (get h1 p "path") data = Some resolved ->
     isCallable h1 resolved = true ->
     pathObjectExpressesSymbol p resolved h1 = Ok (true, h1) ->
     truthy (getDef (get h1 p "call") (VBool true)) = true ->
     (isValidPathObject h input = true ->
      is_positive (get h1 (get h1 p "parameters") "length") = true ->
      fill host (S n) input data ign cp h =
        (let* filled := fill host n (get h1 p "parameters") data [] [] in
         let* _ := store_prop p "parameters" filled in
         invoke_target host p resolved) h1)
     /\ (forall s, input = VStr s ->
         fill host (S n) input data ign cp h = invoke_target host p resolved h1))
  /\ (forall (host : Host) n a elems data (h : heap),
        h !! a = Some (OArray elems) ->
        fill host (S n) (VRef a) data [] [] h
        = (let* _ := fill_elements host (fill host n) n a 0 data [] [] in
           ret (VRef a)) (h ++ [OObject []]))
  /\ (forall (host : Host) n m a i elems e data (h : heap),
        h !! a = Some (OArray elems) ->
        elems !! i = Some e ->
        fill_elements host (fill host n) (S m) a i data [] [] h
        = (let* res := (let* r := fill host n e data [] [] in
                        await host r) in
           let* _ := store_elem a i res in
           fill_elements host (fill host n) m a (S i) data [] []) h)
  /\ (forall n, exists h',
        fill Demo.host (S (S (S n))) (VRef 5) (VRef 2) [] [] Demo.heap_nested
        = Ok (VInt 8, h'))
  /\ (forall n, exists h',
        fill Demo.host (S n)
          (VStr ("{outer;[" ++ Str.quoted "{inner}" ++ "]}")) (VRef 2) [] []
          Demo.heap_nested
        = Ok (VNum NaN, h') /\
        get h' (get h' (VRef 7) "parameters") "0" = VStr "{inner}").
Proof.
  split; [| split; [| split; [| split]]].
  - intros. now apply parameters_walked.
  - intros host n a elems data h A. now apply (fill_array_loop host n a elems).
  - intros host n m a i elems e data h A E.
    now apply (fill_elements_step host _ m a i elems e).
  - intros n. destruct n as [| n]; eexists; vm_compute; reflexivity.
  - intros n. eexists. split; vm_compute; reflexivity.
Qed.

Lemma parameters_are_walked_witness :
  let h1 := Demo.heap_nested
              ++ [OObject [("path", VStr "outer"); ("parameters", VRef 4);
                           ("supportsNested", VBool true)]] in
  parsePathObject (VRef 5) Demo.heap_nested = Ok (VRef 6, h1) /\
  isValidPathObject h1 (VRef 6) = true /\
  tryResolveDotPath h1 (get h1 (VRef 6) "path") (VRef 2) = Some (VRef 1) /\
  isCallable h1 (VRef 1) = true /\
  pathObjectExpressesSymbol (VRef 6) (VRef 1) h1 = Ok (true, h1) /\
  truthy (getDef (get h1 (VRef 6) "call") (VBool true)) = true /\
  isValidPathObject Demo.heap_nested (VRef 5) = true /\
  is_positive (get h1 (get h1 (VRef 6) "parameters") "length") = true /\
  fill Demo.host 3 (VRef 5) (VRef 2) [] [] Demo.heap_nested
  = (let* filled := fill Demo.host 2 (VRef 4) (VRef 2) [] [] in
     let* _ := store_prop (VRef 6) "parameters" filled in
     invoke_target Demo.host (VRef 6) (VRef 1)) h1.
Proof.
  cbv zeta. do 8 (split; [reflexivity |]).
  apply (proj1 (proj1 parameters_are_walked Demo.host 2 (VRef 5) (VRef 2) [] []
                  Demo.heap_nested (VRef 6) _ (VRef 1)
                  eq_refl eq_refl eq_refl eq_refl eq_refl eq_refl));
    reflexivity.
Defined.




(** C8: a descriptor whose effective [call] is false and whose path
    resolves to a callable target makes [fill] return the target itself,
    without invoking it; with [M = {f: () => 1}] the compact descriptor
    of [f] with the call field [false] yields the function [f], whatever
    the host would compute for it. *)
Theorem uninvoked_target :
  (forall (host : Host) n input data ign cp h p h1 resolved,
     parsePathObject input h = Ok (p, h1) ->
     isValidPathObject h1 p = true ->
     truthy (getDef (get h1 p "call") (VBool true)) = false ->
     tryResolveDotPath h1 (get h1 p "path") data = Some resolved ->
     isCallable h1 resolved = true ->
     fill host (S n) input data ign cp h = Ok (resolved, h1))
  /\ (forall (host : Host) n,
        callable_of Demo.heap_one (VRef 0) = Some Demo.one /\
        fill host (S n) (VStr "{f;;false}") (VRef 1) [] [] Demo.heap_one
        = Ok (VRef 0,
              Demo.heap_one ++ [descriptor (VStr "f") VUndefined (VBool false)])).
Proof.
  split.
  - intros host n input data ign cp h p h1 resolved P V E R C.
    rewrite (fill_root host n input data ign cp h p h1 resolved
               (parsed_valid_walkable h input p h1 P V) P R).
    unfold bind.
    rewrite (tmr_uncalled host _ p resolved data h1 V C E).
    cbn [isReferenceable REFERENCABLE dereference getReference].
    now apply callable_await.
  - intros host n. split; vm_compute; reflexivity.
Qed.

Lemma uninvoked_target_witness :
  let h1 := Demo.heap_one ++ [descriptor (VStr "f") VUndefined (VBool false)] in
  parsePathObject (VStr "{f;;false}") Demo.heap_one = Ok (VRef 2, h1) /\
  isValidPathObject h1 (VRef 2) = true /\
  truthy (getDef (get h1 (VRef 2) "call") (VBool true)) = false /\
  tryResolveDotPath h1 (get h1 (VRef 2) "path") (VRef 1) = Some (VRef 0) /\
  isCallable h1 (VRef 0) = true /\
  fill Demo.host 1 (VStr "{f;;false}") (VRef 1) [] [] Demo.heap_one
  = Ok (VRef 0, h1).
Proof.
  cbv zeta. do 5 (split; [reflexivity |]).
  apply (proj1 uninvoked_target Demo.host 0 (VStr "{f;;false}") (VRef 1) [] []
           Demo.heap_one (VRef 2) _ (VRef 0)); reflexivity.
Defined.

(** C9: with [M = {x: 5}] and the input [{a: [{b: "{x}"}]}], the entry
    [b] has the path [a.0.b] from the root, and with that path among the
    ignored paths [fill] resolves it all the same, to [5]: the walker
    pops the index off [currentPath] before it descends into an element
    of an array, so below an array the index is missing from the path
    that is compared ([a.b] is what leaves the entry alone). The example
    of the claim holds: with [{a: "{x}", b: "{x}"}] and the ignored path
    [a], the entry [a] keeps its string and [b] becomes [5]. *)
Theorem ignored_path_below_array_is_resolved (host : Host) (n : nat) :
  (exists h',
     fill host (S (S (S (S n)))) (VRef 3) (VRef 0) [VStr "a.0.b"] []
       Demo.heap_under_array = Ok (VRef 10, h') /\
     get h' (get h' (get h' (VRef 10) "a") "0") "b" = VInt 5)
  /\ (exists h',
        fill host (S (S (S (S n)))) (VRef 3) (VRef 0) [VStr "a.b"] []
          Demo.heap_under_array = Ok (VRef 9, h') /\
        get h' (get h' (get h' (VRef 9) "a") "0") "b" = VStr "{x}")
  /\ (forall cp i, pop (push cp (Idx i)) = cp)
  /\ (exists h',
        fill host (S (S n)) (VRef 1) (VRef 0) [VStr "a"] []
          Demo.heap_ignored = Ok (VRef 4, h') /\
        entries h' (VRef 4) = Some [("a", VStr "{x}"); ("b", VInt 5)]).
Proof.
  split; [| split; [| split]].
  - eexists. split; vm_compute; reflexivity.
  - eexists. split; vm_compute; reflexivity.
  - intros cp i. apply pop_push.
  - eexists. split; vm_compute; reflexivity.
Qed.

(** C10: [fill] works on an array in place. An array of bare references
    to primitives of the data map is returned as the same reference, and
    after the call that array holds the resolved values, every other
    object of the caller being as before; whatever an array holds, a
    [fill] that returns gives back the reference it was given. A mapping
    of such references, not itself a descriptor, is left as it was, and
    the result is a new object, at a location the caller's heap did not
    have, with the same keys and the resolved values. With [M = {x: 5}],
    the array [["{x}", "y"]] holds [[5, "y"]] after the call, and the
    mapping [{k: "{x}"}] is still [{k: "{x}"}] next to the new
    [{k: 5}]. *)
Theorem fill_array_in_place (host : Host) :
  (forall n a d dprops ks cp (h : heap),
     a <> d ->
     h !! a = Some (OArray (map reference ks)) ->
     h !! d = Some (OObject dprops) ->
     forallb (resolvable dprops) ks = true ->
     (length ks <= S n)%nat ->
     exists h',
       fill host (S (S n)) (VRef a) (VRef d) [] cp h = Ok (VRef a, h') /\
       h' !! a = Some (OArray (map (lookup_in dprops) ks)) /\
       (forall l, (l < length h)%nat -> l <> a -> h' !! l = h !! l))
  /\ (forall n a data ign cp (h : heap) v h',
        isArray h (VRef a) = true ->
        fill host n (VRef a) data ign cp h = Ok (v, h') ->
        v = VRef a)
  /\ (forall n l d dprops es cp (h : heap),
        h !! l = Some (OObject (map reference_entry es)) ->
        isValidPathObject h (VRef l) = false ->
        h !! d = Some (OObject dprops) ->
        forallb (fun e => resolvable dprops (snd e)) es = true ->
        exists x,
          fill host (S n) (VRef l) (VRef d) [] cp h
          = Ok (VRef (length (h ++ x)),
                (h ++ x)
                  ++ [OObject (fromEntries (map (resolved_entry dprops) es))]))
  /\ (forall n, exists h',
        fill host (S (S (S n))) (VRef 1) (VRef 0) [] [] Demo.heap_inplace
        = Ok (VRef 1, h') /\
        h' !! 1%nat = Some (OArray [VInt 5; VStr "y"]))
  /\ (forall n, exists h',
        fill host (S n) (VRef 2) (VRef 0) [] [] Demo.heap_inplace
        = Ok (VRef 5, h') /\
        h' !! 2%nat = Some (OObject [("k", VStr "{x}")]) /\
        h' !! 5%nat = Some (OObject [("k", VInt 5)])).
Proof.
  split; [| split; [| split; [| split]]].
  - intros. now apply fill_array_references.
  - intros n a data ign cp h v h'. apply fill_array_same_reference.
  - intros. now apply fill_mapping_references.
  - intros n. destruct n as [| n]; eexists; split; vm_compute; reflexivity.
  - intros n. eexists. repeat split; vm_compute; reflexivity.
Qed.

Lemma fill_array_in_place_witness :
  let h := [OObject [("x", VInt 5); ("y", VBool true)];
            OArray (map reference ["x"; "y"])] in
  1%nat <> 0%nat /\
  h !! 1%nat = Some (OArray (map reference ["x"; "y"])) /\
  h !! 0%nat = Some (OObject [("x", VInt 5); ("y", VBool true)]) /\
  forallb (resolvable [("x", VInt 5); ("y", VBool true)]) ["x"; "y"] = true /\
  (length ["x"; "y"] <= 2)%nat /\
  exists h',
    fill Demo.host 3 (VRef 1) (VRef 0) [] [] h = Ok (VRef 1, h') /\
    h' !! 1%nat
    = Some (OArray (map (lookup_in [("x", VInt 5); ("y", VBool true)]) ["x"; "y"])) /\
    (forall l, (l < length h)%nat -> l <> 1%nat -> h' !! l = h !! l).
Proof.
  cbv zeta.
  split; [discriminate |]. do 3 (split; [reflexivity |]).
  split; [simpl; lia |].
  apply (proj1 (fill_array_in_place Demo.host) 1%nat 1%nat 0%nat
           [("x", VInt 5); ("y", VBool true)] ["x"; "y"] []);
    [discriminate | reflexivity | reflexivity | reflexivity | simpl; lia].
Defined.

(** * Further properties of the source *)

(** ** Dot paths *)

Lemma split_nonempty sep s : Str.split sep s <> [].
Proof.
  destruct s as [| c s]; simpl; [discriminate |].
  destruct (Ascii.eqb c sep); [discriminate |].
  destruct (Str.split sep s); discriminate.
Qed.

Lemma split_at sep (a b : string) :
  Str.split sep (a ++ String sep b)%string = Str.split sep a ++ Str.split sep b.
Proof.
  induction a as [| c a IH]; simpl.
  - now rewrite Ascii.eqb_refl.
  - destruct (Ascii.eqb c sep); [now rewrite IH |].
    rewrite IH. pose proof (split_nonempty sep a) as N.
    destruct (Str.split sep a) as [| w ws]; [congruence | reflexivity].
Qed.

Lemma descend_none h ks : fold_left (descend h) ks None = None.
Proof. induction ks as [| k ks IH]; simpl; [reflexivity | exact IH]. Qed.

Lemma descend_undefined h ks :
  fold_left (descend h) ks (Some VUndefined) = Some VUndefined.
Proof. induction ks as [| k ks IH]; simpl; [reflexivity | exact IH]. Qed.

Lemma descend_falsy h ks v :
  truthy v = false -> ks <> [] ->
  fold_left (descend h) ks (Some v) = Some VUndefined.
Proof.
  intros F N. destruct ks as [| k ks]; [congruence |].
  cbn [fold_left]. unfold descend at 2. rewrite F. apply descend_undefined.
Qed.

Lemma resolve_fold h s obj :
  tryResolveDotPath h (VStr s) obj
  = fold_left (descend h) (Str.split "." s) (Some obj).
Proof. reflexivity. Qed.

(** X1: resolving the dot path [p.q] is resolving [q] in what [p]
    resolves to: [tryResolveDotPath] composes along the dots, for every
    data value, also when [p] and [q] hold dots themselves; where [p] has
    no result in the model, [p.q] has none. *)
Theorem tryResolveDotPath_compose (h : heap) (p q : string) (obj : value) :
  tryResolveDotPath h (VStr (p ++ "." ++ q)) obj
  = match tryResolveDotPath h (VStr p) obj with
    | Some v => tryResolveDotPath h (VStr q) v
    | None => None
    end.
Proof.
  rewrite !resolve_fold.
  change (p ++ "." ++ q)%string with (p ++ String "." q)%string.
  rewrite split_at, fold_left_app.
  destruct (fold_left (descend h) (Str.split "." p) (Some obj)) as [v |].
  - reflexivity.
  - apply descend_none.
Qed.

(** X2: once a prefix [p] of a dot path resolves to a falsy value
    ([undefined], [null], [0], [false], the empty string), every longer
    path [p.q] resolves to [undefined]: the descent never reads a property
    of a falsy value, not even the [length] of an empty string. *)
Theorem tryResolveDotPath_below_falsy
  (h : heap) (p q : string) (obj v : value) :
  tryResolveDotPath h (VStr p) obj = Some v ->
  truthy v = false ->
  tryResolveDotPath h (VStr (p ++ "." ++ q)) obj = Some VUndefined.
Proof.
  intros R F. rewrite resolve_fold in *.
  change (p ++ "." ++ q)%string with (p ++ String "." q)%string.
  rewrite split_at, fold_left_app, R.
  apply descend_falsy; [exact F | apply split_nonempty].
Qed.

Lemma tryResolveDotPath_below_falsy_witness :
  let h := [OObject [("name", VStr EmptyString); ("n", VInt 0)]] in
  tryResolveDotPath h (VStr "name") (VRef 0) = Some (VStr EmptyString) /\
  truthy (VStr EmptyString) = false /\
  get h (VStr EmptyString) "length" = VInt 0 /\
  tryResolveDotPath h (VStr ("name" ++ "." ++ "length")) (VRef 0)
  = Some VUndefined.
Proof.
  cbv zeta. do 3 (split; [reflexivity |]).
  apply (tryResolveDotPath_below_falsy _ "name" "length" (VRef 0)
           (VStr EmptyString)); reflexivity.
Defined.

(** ** The shape of a compact string *)

Import Regex RegexFacts StrFacts.

Lemma never_matches c r s :
  matches r s -> never c r = true ->
  forallb (fun x => negb (mem x [c])) s = true.
Proof.
  induction 1 as [ | c0 cs Hm | c0 cs Hm
                 | r1 r2 s1 s2 H1 IH1 H2 IH2
                 | r1 r2 s0 H1 IH1 | r1 r2 s0 H2 IH2
                 | r0 | r0 s1 s2 H1 IH1 H2 IH2 ];
    intros N; cbn [never] in N; cbn [forallb].
  - reflexivity.
  - rewrite andb_true_r. unfold mem at 1. cbn [existsb]. rewrite orb_false_r.
    destruct (Ascii.eqb c0 c) eqn:E; [| reflexivity].
    apply Ascii.eqb_eq in E. subst c0. now rewrite Hm in N.
  - rewrite andb_true_r. unfold mem at 1. cbn [existsb]. rewrite orb_false_r.
    destruct (Ascii.eqb c0 c) eqn:E; [| reflexivity].
    apply Ascii.eqb_eq in E. subst c0. now rewrite Hm in N.
  - apply andb_prop in N as [N1 N2]. rewrite forallb_app, IH1, IH2; auto.
  - apply andb_prop in N as [N1 N2]. auto.
  - apply andb_prop in N as [N1 N2]. auto.
  - reflexivity.
  - rewrite forallb_app, IH1, IH2; auto.
Qed.

Lemma matches_seq_inv r1 r2 s :
  matches (Seq r1 r2) s -> exists s1 s2, s = s1 ++ s2 /\ matches r1 s1 /\ matches r2 s2.
Proof. inversion 1; subst; eauto. Qed.

Lemma matches_lit_inv c s : matches (Lit c) s -> s = [c].
Proof.
  inversion 1; subst. simpl in *.
  destruct (Ascii.eqb c0 c) eqn:E; [| discriminate].
  apply Ascii.eqb_eq in E. now subst.
Qed.

Lemma matches_plus_inv r s :
  matches (Plus r) s -> (forall w, matches r w -> w <> []) -> s <> [].
Proof.
  intros M N. apply matches_seq_inv in M as (s1 & s2 & -> & M1 & _).
  specialize (N s1 M1). destruct s1; [congruence | discriminate].
Qed.

Lemma matches_class_inv cs w : matches (NoneOf cs) w -> exists c, w = [c] /\ mem c cs = false.
Proof. inversion 1; subst; eauto. Qed.

(** The shape of a string that [isShortHand] accepts. *)
Lemma shorthand_shape s :
  isShortHand (VStr s) = true ->
  exists body : string,
    s = String "{" (body ++ "}")%string /\ body <> EmptyString /\
    avoids [Str.newline] s = true.
Proof.
  unfold isShortHand, Regex.test. intros T. apply run_iff in T.
  assert (NL : avoids [Str.newline] s = true).
  { exact (never_matches Str.newline _ _ T eq_refl). }
  unfold shorthand_re in T.
  apply matches_seq_inv in T as (s0 & t0 & E0 & M0 & T).
  apply matches_lit_inv in M0. subst s0.
  apply matches_seq_inv in T as (s1 & t1 & -> & M1 & T).
  apply matches_seq_inv in T as (s2 & t2 & -> & M2 & T).
  apply matches_seq_inv in T as (s3 & t3 & -> & M3 & T).
  apply matches_lit_inv in T. subst t3.
  assert (N1 : s1 <> []).
  { apply (matches_plus_inv _ _ M1). intros w W.
    apply matches_class_inv in W as (c & -> & _). discriminate. }
  exists (string_of_list_ascii (s1 ++ s2 ++ s3)).
  split; [| split; [| exact NL]].
  - rewrite <- (string_of_list_ascii_of_string s). unfold Str.chars in E0. rewrite E0.
    simpl. f_equal.
    rewrite <- (string_of_list_ascii_of_string (string_of_list_ascii (s1 ++ s2 ++ s3) ++ "}")).
    f_equal. fold (Str.chars (string_of_list_ascii (s1 ++ s2 ++ s3) ++ "}")).
    rewrite chars_app. unfold Str.chars. rewrite list_ascii_of_string_of_list_ascii.
    simpl. now rewrite <- !app_assoc.
  - destruct s1; [congruence | discriminate].
Qed.

Lemma matches_field_inv r s :
  matches (Alt Eps (Alt (Lit ";") (Seq (Lit ";") r))) s ->
  s = [] \/ exists t, s = ";"%char :: t.
Proof.
  inversion 1 as [| | | | ? ? ? M | ? ? ? M | |]; subst.
  - inversion M; subst. now left.
  - right. inversion M as [| | | | ? ? ? M' | ? ? ? M' | |]; subst.
    + apply matches_lit_inv in M'. subst. eauto.
    + apply matches_seq_inv in M' as (a & b & -> & A & _).
      apply matches_lit_inv in A. subst. simpl. eauto.
Qed.

Lemma class_star_avoids cs w :
  matches (Star (NoneOf cs)) w -> forallb (fun c => negb (mem c cs)) w = true.
Proof.
  remember (Star (NoneOf cs)) as r eqn:R.
  induction 1 as [ | | | | | | r0 | r0 s1 s2 H1 IH1 H2 IH2 ]; try discriminate.
  - reflexivity.
  - injection R as ->. rewrite forallb_app.
    apply matches_class_inv in H1 as (c & -> & C). simpl. rewrite C. simpl.
    now apply IH2.
Qed.

Lemma class_plus_avoids cs w :
  matches (Plus (NoneOf cs)) w ->
  w <> [] /\ forallb (fun c => negb (mem c cs)) w = true.
Proof.
  intros M. apply matches_seq_inv in M as (a & b & -> & A & B).
  apply matches_class_inv in A as (c & -> & C). split; [discriminate |].
  simpl. rewrite C. simpl. now apply class_star_avoids.
Qed.

(** The fields of an accepted string: the path comes first, and what
    follows it is empty or begins with a semicolon. *)
Lemma shorthand_fields s :
  isShortHand (VStr s) = true ->
  exists path rest : string,
    s = String "{" (path ++ rest ++ "}")%string /\
    path_field path = true /\
    (rest = EmptyString \/ exists r, rest = String ";" r) /\
    avoids [Str.newline] s = true.
Proof.
  unfold isShortHand, Regex.test. intros T. apply run_iff in T.
  assert (NL : avoids [Str.newline] s = true)
    by exact (never_matches Str.newline _ _ T eq_refl).
  unfold shorthand_re in T.
  apply matches_seq_inv in T as (s0 & t0 & E0 & M0 & T).
  apply matches_lit_inv in M0. subst s0.
  apply matches_seq_inv in T as (s1 & t1 & -> & M1 & T).
  apply matches_seq_inv in T as (s2 & t2 & -> & M2 & T).
  apply matches_seq_inv in T as (s3 & t3 & -> & M3 & T).
  apply matches_lit_inv in T. subst t3.
  apply class_plus_avoids in M1 as [N1 A1].
  exists (string_of_list_ascii s1), (string_of_list_ascii (s2 ++ s3)).
  split; [| split; [| split; [| exact NL]]].
  - rewrite <- (string_of_list_ascii_of_string s). unfold Str.chars in E0. rewrite E0.
    simpl. f_equal.
    rewrite <- (string_of_list_ascii_of_string
                  (string_of_list_ascii s1 ++ string_of_list_ascii (s2 ++ s3) ++ "}")).
    f_equal.
    change (list_ascii_of_string ?x) with (Str.chars x).
    rewrite !chars_app. unfold Str.chars.
    rewrite !list_ascii_of_string_of_list_ascii. simpl.
    now rewrite <- !app_assoc.
  - unfold path_field, avoids, Str.chars.
    rewrite list_ascii_of_string_of_list_ascii, A1, andb_true_r.
    destruct s1; [congruence | reflexivity].
  - apply matches_field_inv in M2 as [-> | [t ->]].
    + apply matches_field_inv in M3 as [-> | [t ->]]; [now left |].
      right. simpl. eauto.
    + right. simpl. eauto.
Qed.

Lemma shorthand_first_field s path rest :
  s = String "{" (path ++ rest ++ "}")%string ->
  path_field path = true ->
  (rest = EmptyString \/ exists r, rest = String ";" r) ->
  exists more, Str.split ";" (Str.slice s 1 (-1)) = path :: more.
Proof.
  intros -> P R. apply andb_prop in P as [_ P].
  assert (A : avoids [";"%char] path = true)
    by (apply (avoids_weaken ";" [";"%char; Str.newline] path); [reflexivity | exact P]).
  rewrite <- append_assoc, slice_inner.
  destruct R as [-> | [r ->]].
  - rewrite append_nil_r, (split_whole _ _ A). eauto.
  - rewrite (split_app _ _ _ A). eauto.
Qed.

(** X3: a string that [isShortHand] accepts is a brace, a non-empty path
    field without semicolon and newline, a remainder and a closing brace,
    and the descriptor [parsePathObject] builds from it has that field as
    its [path] and no [supportsNested] mark. *)
Theorem shorthand_has_path (h : heap) (s : string) (p : value) (h1 : heap) :
  isShortHand (VStr s) = true ->
  parsePathObject (VStr s) h = Ok (p, h1) ->
  exists path rest : string,
    s = String "{" (path ++ rest ++ "}")%string /\
    path_field path = true /\
    get h1 p "path" = VStr path /\
    get h1 p "supportsNested" = VUndefined.
Proof.
  intros S P.
  destruct (shorthand_fields s S) as (path & rest & E & F & R & _).
  destruct (shorthand_first_field s path rest E F R) as [more Sp].
  exists path, rest. split; [exact E |]. split; [exact F |].
  split; [| exact (parsed_string_flat h s p h1 P)].
  rewrite (parsePathObject_shorthand h s S) in P. cbv zeta in P.
  rewrite Sp in P. unfold elem_value at 1 3 5 in P. cbn [lookup list_lookup] in P.
  assert (G : forall (x : heap) b c,
             get (x ++ [descriptor (VStr path) b c]) (VRef (length x)) "path"
             = VStr path)
    by (intros; unfold descriptor; now rewrite get_fresh).
  destruct (more !! 0%nat) as [text |].
  - destruct (String.eqb text EmptyString).
    + injection P as <- <-. apply G.
    + unfold bind, JSON_parse, alloc in P.
      destruct (Json.parse text) as [j |]; [| discriminate].
      destruct (reify j h) as [v h2]. injection P as <- <-. apply G.
  - injection P as <- <-. apply G.
Qed.

Lemma shorthand_has_path_witness :
  isShortHand (VStr "{user.age;;false}") = true /\
  parsePathObject (VStr "{user.age;;false}") []
  = Ok (VRef 0, [descriptor (VStr "user.age") VUndefined (VBool false)]) /\
  exists path rest : string,
    "{user.age;;false}" = String "{" (path ++ rest ++ "}")%string /\
    path_field path = true /\
    get [descriptor (VStr "user.age") VUndefined (VBool false)] (VRef 0) "path"
    = VStr path /\
    get [descriptor (VStr "user.age") VUndefined (VBool false)] (VRef 0)
      "supportsNested" = VUndefined.
Proof.
  split; [reflexivity |]. split; [reflexivity |].
  apply (shorthand_has_path [] "{user.age;;false}"); reflexivity.
Defined.

(** ** Strings that are no descriptors, and paths that lead nowhere *)

(** A string whose parse is no valid descriptor is handed back, once
    the path of the parse has been looked up. *)
Lemma fill_string_unparsed (host : Host) n s data ign cp h p h1 resolved :
  parsePathObject (VStr s) h = Ok (p, h1) ->
  isValidPathObject h1 p = false ->
  tryResolveDotPath h1 (get h1 p "path") data = Some resolved ->
  fill host (S n) (VStr s) data ign cp h = Ok (VStr s, h1).
Proof.
  intros P V R.
  rewrite (fill_root host n (VStr s) data ign cp h p h1 resolved eq_refl P R).
  unfold bind. now rewrite (tmr_invalid host _ _ _ data _ V).
Qed.

(** X4: [fill] returns a string that is not of the compact form as it
    is, whatever the data, the ignored paths and the current path are; no
    host function is invoked. *)
Theorem fill_returns_other_strings (host : Host) n s data ign cp (h : heap) :
  isShortHand (VStr s) = false ->
  fill host (S n) (VStr s) data ign cp h = Ok (VStr s, h ++ [OObject []]).
Proof.
  intros S.
  apply (fill_string_unparsed host n s data ign cp h (VRef (length h)) _
           VUndefined).
  - unfold parsePathObject. now rewrite string_never_valid, S.
  - apply empty_object_invalid.
  - now rewrite get_fresh.
Qed.

Lemma fill_returns_other_strings_witness :
  isShortHand (VStr "{user.age") = false /\
  fill Demo.host 1 (VStr "{user.age") (VRef 0) [] [] [OObject []]
  = Ok (VStr "{user.age", [OObject []; OObject []]).
Proof.
  split; [reflexivity |].
  apply (fill_returns_other_strings Demo.host 0 "{user.age" (VRef 0) [] []
           [OObject []]).
  reflexivity.
Defined.

(** X5: when the input parses to a valid descriptor whose path resolves
    to [undefined] in the data, [fill] throws the not-accessible error for
    that path; nothing is returned. *)
Theorem fill_unresolved_path (host : Host) n input data ign cp h p h1 :
  parsePathObject input h = Ok (p, h1) ->
  isValidPathObject h1 p = true ->
  tryResolveDotPath h1 (get h1 p "path") data = Some VUndefined ->
  fill host (S n) input data ign cp h = Throw (NotAccessible (get h1 p "path")).
Proof.
  intros P V R.
  rewrite (fill_root host n input data ign cp h p h1 VUndefined
             (parsed_valid_walkable h input p h1 P V) P R).
  unfold bind. rewrite (tmr_undefined host _ p data h1 V).
  now rewrite (valid_subject h1 p V).
Qed.

Lemma fill_unresolved_path_witness :
  let h := [OObject [("user", VRef 1)]; OObject [("age", VInt 27)]] in
  let h1 := h ++ [descriptor (VStr "user.name") VUndefined VUndefined] in
  parsePathObject (VStr "{user.name}") h = Ok (VRef 2, h1) /\
  isValidPathObject h1 (VRef 2) = true /\
  tryResolveDotPath h1 (get h1 (VRef 2) "path") (VRef 0) = Some VUndefined /\
  fill Demo.host 1 (VStr "{user.name}") (VRef 0) [] [] h
  = Throw (NotAccessible (VStr "user.name")).
Proof.
  cbv zeta. do 3 (split; [reflexivity |]).
  apply (fill_unresolved_path Demo.host 0 (VStr "{user.name}") (VRef 0) [] []
           [OObject [("user", VRef 1)]; OObject [("age", VInt 27)]] (VRef 2)
           ([OObject [("user", VRef 1)]; OObject [("age", VInt 27)]]
              ++ [descriptor (VStr "user.name") VUndefined VUndefined]));
    reflexivity.
Defined.

(** [pathObjectExpressesSymbol] returns [true] or raises. *)
Lemma pes_returns_true obj resolved h b h' :
  pathObjectExpressesSymbol obj resolved h = Ok (b, h') -> b = true /\ h' = h.
Proof.
  unfold pathObjectExpressesSymbol.
  repeat match goal with
         | |- context [if ?c then _ else _] => destruct c
         end; intros [=]; auto.
Qed.

(** X6: whenever [tryMakeReferenceable] returns, [isReferenceable] is
    exactly [isValidPathObject] of the descriptor, and a referenceable
    result carries its accessor: the second [NOT_REFERENCEABLE] exit, behind
    [pathObjectExpressesSymbol], is never taken, since that function
    returns [true] or throws. *)
Theorem tryMakeReferenceable_skips_only_invalid
  (host : Host) F obj resolved data (h : heap) r h' :
  tryMakeReferenceable host F obj resolved data h = Ok (r, h') ->
  isReferenceable r = isValidPathObject h obj /\
  (isReferenceable r = true -> exists cb, getReference r = Some cb).
Proof.
  unfold tryMakeReferenceable.
  destruct (isValidPathObject h obj) eqn:V; cbn [negb].
  2: { intros [= <- <-]. split; [reflexivity | discriminate]. }
  unfold bind at 1.
  destruct (pathObjectExpressesSymbol obj resolved h) as [[b h0] | | |] eqn:P;
    try discriminate.
  destruct (pes_returns_true _ _ _ _ _ P) as [-> ->]. cbn [negb].
  destruct (negb (isCallable h resolved)).
  { intros [= <- <-]. split; [reflexivity | eauto]. }
  destruct (negb (truthy _)).
  { intros [= <- <-]. split; [reflexivity | eauto]. }
  unfold bind.
  match goal with
  | |- context [match ?m h with _ => _ end] =>
      destruct (m h) as [[u h2] | | |]; try discriminate
  end.
  destruct (isFunction h2 resolved); intros [= <- <-];
    (split; [reflexivity | eauto]).
Qed.

Lemma tryMakeReferenceable_skips_only_invalid_witness :
  let h := Demo.heap_call in
  tryMakeReferenceable Demo.host (fill Demo.host 0) (VRef 1) (VInt 5) (VRef 0) h
  = Ok (REFERENCABLE (await Demo.host (VInt 5)), h) /\
  isReferenceable (REFERENCABLE (await Demo.host (VInt 5)))
  = isValidPathObject h (VRef 1).
Proof.
  cbv zeta. split; [reflexivity |].
  apply (proj1 (tryMakeReferenceable_skips_only_invalid Demo.host
                  (fill Demo.host 0) (VRef 1) (VInt 5) (VRef 0) Demo.heap_call
                  _ _ eq_refl)).
Defined.

(** ** A call field right after the path *)

Lemma isShortHand_misplaced_flag p c :
  path_field p = true -> isShortHand (VStr (misplaced_flag p c)) = true.
Proof.
  intros Hp. apply andb_prop in Hp as [Hne Hp].
  unfold isShortHand, Regex.test. apply run_iff.
  unfold misplaced_flag, shorthand_re.
  rewrite !chars_app.
  apply MSeq; [apply matches_lit |].
  apply MSeq.
  { apply matches_plus_class; [| exact Hp].
    destruct p; [discriminate | discriminate]. }
  apply (matches_seq _ _ _ []
           (Str.chars ";" ++ Str.chars (flag c) ++ Str.chars "}"));
    [reflexivity | apply MAltL, MEps |].
  apply (matches_seq _ _ _ (";"%char :: Str.chars (flag c)) ["}"%char]);
    [simpl; reflexivity | | apply matches_lit].
  apply MAltR, MAltR. apply (matches_flag c).
Qed.

Lemma misplaced_flag_fields p c :
  path_field p = true ->
  Str.split ";" (Str.slice (misplaced_flag p c) 1 (-1)) = [p; flag c].
Proof.
  intros Hp. apply andb_prop in Hp as [_ Hp].
  unfold misplaced_flag. cbn [String.append].
  change (p ++ String ";" (flag c ++ "}"))%string
    with (p ++ (String ";" (flag c)) ++ "}")%string.
  rewrite <- append_assoc, slice_inner.
  rewrite split_app
    by (apply (avoids_weaken ";" [";"%char; Str.newline] p); [reflexivity | exact Hp]).
  now destruct c.
Qed.

Lemma parse_misplaced_flag (h : heap) p c :
  path_field p = true ->
  parsePathObject (VStr (misplaced_flag p c)) h
  = Ok (VRef (length h), h ++ [descriptor (VStr p) (VBool c) VUndefined]).
Proof.
  intros Hp.
  rewrite (parsePathObject_shorthand h _ (isShortHand_misplaced_flag p c Hp)).
  cbv zeta. rewrite (misplaced_flag_fields p c Hp).
  now destruct c.
Qed.

(** X7: a compact string that gives the call flag straight after the
    path, [{p;true}] or [{p;false}], is accepted by [isShortHand], but the
    flag is decoded as the [parameters] field; the descriptor is not valid
    and, once its path has been looked up in the data, [fill] returns the
    string unchanged, whatever the path resolves to. *)
Theorem fill_ignores_misplaced_flag (host : Host) n p c data ign cp (h : heap) :
  path_field p = true ->
  let h1 := h ++ [descriptor (VStr p) (VBool c) VUndefined] in
  parsePathObject (VStr (misplaced_flag p c)) h = Ok (VRef (length h), h1) /\
  isValidPathObject h1 (VRef (length h)) = false /\
  (forall r,
     tryResolveDotPath h1 (VStr p) data = Some r ->
     fill host (S n) (VStr (misplaced_flag p c)) data ign cp h
     = Ok (VStr (misplaced_flag p c), h1)).
Proof.
  intros Hp h1.
  pose proof (parse_misplaced_flag h p c Hp) as P.
  assert (V : isValidPathObject h1 (VRef (length h)) = false).
  { unfold isValidPathObject, h1, descriptor. rewrite !get_fresh. cbn.
    now rewrite !andb_false_r. }
  split; [exact P |]. split; [exact V |].
  intros r R.
  apply (fill_string_unparsed host n _ data ign cp h (VRef (length h)) _ r);
    [exact P | exact V |].
  unfold h1, descriptor in *. now rewrite get_fresh.
Qed.

Lemma fill_ignores_misplaced_flag_witness :
  let h1 := Demo.heap_one ++ [descriptor (VStr "f") (VBool false) VUndefined] in
  path_field "f" = true /\
  misplaced_flag "f" false = "{f;false}" /\
  tryResolveDotPath h1 (VStr "f") (VRef 1) = Some (VRef 0) /\
  fill Demo.host 1 (VStr "{f;false}") (VRef 1) [] [] Demo.heap_one
  = Ok (VStr "{f;false}", h1).
Proof.
  cbv zeta. do 3 (split; [reflexivity |]).
  apply (proj2 (proj2 (fill_ignores_misplaced_flag Demo.host 0 "f" false
                         (VRef 1) [] [] Demo.heap_one eq_refl)) (VRef 0)).
  reflexivity.
Defined.

(** ** Ignored paths *)

Lemma set_prop_new k v ps :
  ~ In k (map fst ps) -> set_prop k v ps = ps ++ [(k, v)].
Proof.
  induction ps as [| [k' v'] ps IH]; simpl; intros N; [reflexivity |].
  destruct (String.eqb k k') eqn:E.
  - apply String.eqb_eq in E. subst. tauto.
  - rewrite IH; tauto.
Qed.

Lemma fromEntries_from acc es :
  List.NoDup (map fst (acc ++ es)) ->
  fold_left (fun ps e => set_prop (fst e) (snd e) ps) es acc = acc ++ es.
Proof.
  revert acc. induction es as [| [k v] es IH]; intros acc N; simpl.
  - now rewrite app_nil_r.
  - assert (F : ~ In k (map fst acc)).
    { rewrite map_app in N. simpl in N.
      apply NoDup_remove_2 in N. rewrite in_app_iff in N. tauto. }
    rewrite (set_prop_new k v acc F), IH, <- app_assoc; [reflexivity |].
    now rewrite <- app_assoc.
Qed.

(** With distinct keys, [Object.fromEntries] gives the entries back. *)
Lemma fromEntries_distinct es : List.NoDup (map fst es) -> fromEntries es = es.
Proof. intros N. unfold fromEntries. now rewrite (fromEntries_from [] es N). Qed.

Lemma fill_entries_ignored (host : Host) F es data ign cp (h : heap) :
  Forall (fun e => isIgnored ign (push cp (Key (fst e))) = true) es ->
  fill_entries host F es data ign cp h = Ok (es, h).
Proof.
  induction 1 as [| [k v] es I _ IH]; [reflexivity |].
  cbn [fill_entries]. simpl in I. rewrite I. cbn [negb].
  unfold bind, ret. now rewrite IH.
Qed.

(** X8: a mapping all of whose keys are ignored at the current path is
    copied: [fill] returns a new object with the same entries in the same
    order, and the input object stays as it was. *)
Theorem fill_copies_ignored_entries
  (host : Host) n l props data ign cp (h : heap) :
  h !! l = Some (OObject props) ->
  isValidPathObject h (VRef l) = false ->
  List.NoDup (map fst props) ->
  Forall (fun e => isIgnored ign (push cp (Key (fst e))) = true) props ->
  fill host (S n) (VRef l) data ign cp h
  = Ok (VRef (S (length h)), h ++ [OObject []; OObject props]).
Proof.
  intros A V N I.
  rewrite (fill_root host n (VRef l) data ign cp h
             (VRef (length h)) (h ++ [OObject []]) VUndefined).
  - unfold bind at 1.
    rewrite (tmr_invalid host _ _ _ _ _ (empty_object_invalid h)).
    cbn [isReferenceable NOT_REFERENCEABLE typeof isArray entries].
    rewrite (lookup_app_l_Some _ _ _ _ A). cbn [jstype_eqb].
    unfold bind. rewrite (fill_entries_ignored host _ props data ign cp _ I).
    unfold alloc. rewrite (fromEntries_distinct props N), List.length_app.
    simpl. rewrite Nat.add_1_r, <- app_assoc. reflexivity.
  - unfold walkable. simpl. now rewrite A.
  - unfold parsePathObject. now rewrite V.
  - now rewrite get_fresh.
Qed.

Lemma fill_copies_ignored_entries_witness :
  let h := [OObject []; OObject [("a", VNull); ("b", VStr "{nope}")]] in
  h !! 1%nat = Some (OObject [("a", VNull); ("b", VStr "{nope}")]) /\
  isValidPathObject h (VRef 1) = false /\
  fill Demo.host 1 (VRef 1) (VRef 0) [VStr "cfg.a"; VStr "cfg.b"] [Key "cfg"] h
  = Ok (VRef 3,
        h ++ [OObject []; OObject [("a", VNull); ("b", VStr "{nope}")]]).
Proof.
  cbv zeta. split; [reflexivity |]. split; [reflexivity |].
  apply (fill_copies_ignored_entries Demo.host 0 1).
  - reflexivity.
  - reflexivity.
  - repeat constructor; simpl; intuition discriminate.
  - repeat constructor.
Defined.

(** The empty object that a failed parse leaves behind makes no value a
    thenable. *)
Lemma thenable_beside_empty (h : heap) v :
  thenable h v = None -> thenable (h ++ [OObject []]) v = None.
Proof.
  assert (C : forall t, callable_of h t = None ->
                        callable_of (h ++ [OObject []]) t = None).
  { intros [| | b | m | s | t]; try reflexivity. unfold callable_of.
    destruct (h !! t) as [o |] eqn:T.
    - now rewrite (lookup_app_l_Some _ _ _ _ T).
    - intros _. apply lookup_ge_None_1 in T.
      destruct (decide (t = length h)) as [-> | N].
      + now rewrite list_lookup_middle.
      + rewrite lookup_ge_None_2; [reflexivity |].
        rewrite List.length_app. simpl. lia. }
  unfold thenable. intros T.
  destruct v as [| | b | m | s | l]; try exact T.
  unfold get in *. destruct (h !! l) as [o |] eqn:L.
  - rewrite (lookup_app_l_Some _ _ _ _ L). now apply C.
  - apply lookup_ge_None_1 in L.
    destruct (decide (l = length h)) as [-> | N].
    + now rewrite list_lookup_middle.
    + rewrite lookup_ge_None_2; [reflexivity |].
      rewrite List.length_app. simpl. lia.
Qed.

Lemma fill_elements_ignored host F data ign cp a elems (h : heap) :
  h !! a = Some (OArray elems) ->
  (forall i, (i < length elems)%nat -> isIgnored ign (push cp (Idx i)) = true) ->
  Forall (fun e => thenable h e = None) elems ->
  forall k m i,
    (length elems - i <= k)%nat -> (k <= m)%nat ->
    fill_elements host F m a i data ign cp h = Ok (tt, h).
Proof.
  intros A I T. induction k as [| k IH]; intros m i L M.
  - destruct m; cbn [fill_elements]; rewrite A;
      rewrite (lookup_ge_None_2 elems i) by lia; reflexivity.
  - destruct (elems !! i) as [e |] eqn:E.
    + destruct m as [| m]; [lia |].
      cbn [fill_elements]. rewrite A, E.
      rewrite I by (eapply lookup_lt_Some, E). cbn [negb].
      unfold bind at 1.
      rewrite (await_plain host e h) by exact (Forall_lookup_1 _ _ _ _ T E).
      unfold bind, ret, store_elem. rewrite A.
      assert (S1 : array_set elems i e = elems).
      { unfold array_set.
        assert (Lt : (i <? length elems)%nat = true)
          by (apply Nat.ltb_lt; eapply lookup_lt_Some, E).
        rewrite Lt. now apply list_insert_id. }
      rewrite S1. rewrite list_insert_id by exact A.
      apply IH; lia.
    + destruct m; cbn [fill_elements]; rewrite A, E; reflexivity.
Qed.

(** X9: an array all of whose indices are ignored at the current path,
    and none of whose elements is a thenable, is returned as the same
    reference with its elements unchanged. (An ignored element is still
    awaited, so a thenable among them would be adopted.) *)
Theorem fill_keeps_ignored_elements
  (host : Host) n a elems data ign cp (h : heap) :
  h !! a = Some (OArray elems) ->
  (forall i, (i < length elems)%nat -> isIgnored ign (push cp (Idx i)) = true) ->
  Forall (fun e => thenable h e = None) elems ->
  (length elems <= n)%nat ->
  fill host (S n) (VRef a) data ign cp h = Ok (VRef a, h ++ [OObject []]).
Proof.
  intros A I T L.
  rewrite (fill_array_loop host n a elems data ign cp h A).
  unfold bind.
  rewrite (fill_elements_ignored host _ data ign cp a elems _
             (lookup_app_l_Some _ _ _ _ A) I) with (k := n); try lia.
  - reflexivity.
  - eapply Forall_impl; [exact T |]. intros e. apply thenable_beside_empty.
Qed.

Lemma fill_keeps_ignored_elements_witness :
  let h := [OObject []; OArray [VNull; VStr "{nope}"; VRef 0]] in
  h !! 1%nat = Some (OArray [VNull; VStr "{nope}"; VRef 0]) /\
  (forall i, (i < 3)%nat ->
     isIgnored [VStr "list.0"; VStr "list.1"; VStr "list.2"]
       (push [Key "list"] (Idx i)) = true) /\
  Forall (fun e => thenable h e = None) [VNull; VStr "{nope}"; VRef 0] /\
  fill Demo.host 4 (VRef 1) (VRef 0)
    [VStr "list.0"; VStr "list.1"; VStr "list.2"] [Key "list"] h
  = Ok (VRef 1, h ++ [OObject []]).
Proof.
  cbv zeta.
  assert (I : forall i, (i < 3)%nat ->
     isIgnored [VStr "list.0"; VStr "list.1"; VStr "list.2"]
       (push [Key "list"] (Idx i)) = true).
  { intros i L.
    destruct i as [| [| [| i]]]; [reflexivity | reflexivity | reflexivity | lia]. }
  assert (T : Forall (fun e => thenable
                 [OObject []; OArray [VNull; VStr "{nope}"; VRef 0]] e = None)
                [VNull; VStr "{nope}"; VRef 0])
    by (repeat constructor).
  split; [reflexivity |]. split; [exact I |]. split; [exact T |].
  apply (fill_keeps_ignored_elements Demo.host 3 1
           [VNull; VStr "{nope}"; VRef 0]);
    [reflexivity | exact I | exact T | simpl; lia].
Defined.

(** ** The result of a mapping *)

Lemma fill_entries_keys (host : Host) F data ign cp es :
  forall (h : heap) es' h',
    fill_entries host F es data ign cp h = Ok (es', h') ->
    map fst es' = map fst es.
Proof.
  induction es as [| [k v] es IH]; intros h es' h'.
  - intros [= <- <-]. reflexivity.
  - cbn [fill_entries]. unfold bind at 1.
    match goal with
    | |- context [match ?m h with _ => _ end] =>
        destruct (m h) as [[e h1] | | |] eqn:E; try discriminate
    end.
    assert (K : fst e = k).
    { destruct (negb (isIgnored ign (push cp (Key k)))).
      - unfold bind in E.
        repeat match type of E with
               | context [match ?m ?x with _ => _ end] =>
                   destruct (m x) as [[? ?] | | |]; try discriminate
               end.
        now injection E as <- _.
      - now injection E as <- _. }
    unfold bind.
    destruct (fill_entries host F es data ign cp h1) as [[rest h2] | | |] eqn:R;
      try discriminate.
    intros [= <- <-]. simpl. now rewrite K, (IH _ _ _ R).
Qed.

Lemma fromEntries_keys es :
  List.NoDup (map fst es) -> map fst (fromEntries es) = map fst es.
Proof. intros N. now rewrite (fromEntries_distinct es N). Qed.

(** X10: whenever [fill] returns on a mapping that is not a descriptor,
    the result is an object with exactly the keys of the input, in the same
    order, whatever the entries resolve to. *)
Theorem fill_mapping_keeps_keys
  (host : Host) n l props data ign cp (h : heap) v h' :
  h !! l = Some (OObject props) ->
  isValidPathObject h (VRef l) = false ->
  List.NoDup (map fst props) ->
  fill host (S n) (VRef l) data ign cp h = Ok (v, h') ->
  exists l' props',
    v = VRef l' /\
    h' !! l' = Some (OObject props') /\
    map fst props' = map fst props.
Proof.
  intros A V N.
  rewrite (fill_root host n (VRef l) data ign cp h
             (VRef (length h)) (h ++ [OObject []]) VUndefined).
  - unfold bind at 1.
    rewrite (tmr_invalid host _ _ _ _ _ (empty_object_invalid h)).
    cbn [isReferenceable NOT_REFERENCEABLE typeof isArray entries].
    rewrite (lookup_app_l_Some _ _ _ _ A). cbn [jstype_eqb].
    unfold bind.
    destruct (fill_entries _ _ _ _ _ _ _) as [[es' h2] | | |] eqn:E;
      try discriminate.
    unfold alloc. intros [= <- <-].
    pose proof (fill_entries_keys _ _ _ _ _ _ _ _ _ E) as K.
    exists (length h2), (fromEntries es').
    split; [reflexivity |]. split.
    + apply list_lookup_middle. reflexivity.
    + rewrite fromEntries_keys; [exact K | now rewrite K].
  - unfold walkable. simpl. now rewrite A.
  - unfold parsePathObject. now rewrite V.
  - now rewrite get_fresh.
Qed.

Lemma fill_mapping_keeps_keys_witness :
  Demo.heap_ignored !! 1%nat
  = Some (OObject [("a", VStr "{x}"); ("b", VStr "{x}")]) /\
  isValidPathObject Demo.heap_ignored (VRef 1) = false /\
  exists h',
    fill Demo.host 2 (VRef 1) (VRef 0) [VStr "a"] [] Demo.heap_ignored
    = Ok (VRef 4, h') /\
    exists l' props',
      VRef 4 = VRef l' /\
      h' !! l' = Some (OObject props') /\
      map fst props' = map fst [("a", VStr "{x}"); ("b", VStr "{x}")].
Proof.
  split; [reflexivity |]. split; [reflexivity |].
  eexists. split; [vm_compute; reflexivity |].
  apply (fill_mapping_keeps_keys Demo.host 1 1
           [("a", VStr "{x}"); ("b", VStr "{x}")] (VRef 0) [VStr "a"] []
           Demo.heap_ignored).
  - reflexivity.
  - reflexivity.
  - repeat constructor; simpl; intuition discriminate.
  - vm_compute. reflexivity.
Defined.

(** ** An entry that fails *)

Lemma fill_entries_app (host : Host) F data ign cp es1 es2 : forall (h : heap),
  fill_entries host F (es1 ++ es2) data ign cp h
  = match fill_entries host F es1 data ign cp h with
    | Ok (r1, h1) =>
        match fill_entries host F es2 data ign cp h1 with
        | Ok (r2, h2) => Ok (r1 ++ r2, h2)
        | Throw e => Throw e
        | OutOfFuel => OutOfFuel
        | Unmodelled => Unmodelled
        end
    | Throw e => Throw e
    | OutOfFuel => OutOfFuel
    | Unmodelled => Unmodelled
    end.
Proof.
  induction es1 as [| [k v] es1 IH]; intros h.
  - simpl. now destruct (fill_entries host F es2 data ign cp h) as [[r2 h2] | | |].
  - cbn [app fill_entries].
    set (m := if negb (isIgnored ign (push cp (Key k))) then _ else _).
    unfold bind, ret. destruct (m h) as [[e h1] | | |]; try reflexivity.
    rewrite IH.
    destruct (fill_entries host F es1 data ign cp h1) as [[r1 h2] | | |];
      try reflexivity.
    now destruct (fill_entries host F es2 data ign cp h2) as [[r2 h3] | | |].
Qed.

Lemma fill_entries_missing (host : Host) F d dprops key k rest cp (h : heap) :
  h !! d = Some (OObject dprops) ->
  path_field k = true ->
  avoids ["."%char] k = true ->
  assoc k dprops = None ->
  existsb (String.eqb k) object_prototype_names = false ->
  fill_entries host F ((key, reference k) :: rest) (VRef d) [] cp h
  = Throw (NotAccessible (VStr k)).
Proof.
  intros D K A M I.
  cbn [fill_entries]. rewrite not_ignored. cbn [negb].
  set (h1 := h ++ [descriptor (VStr k) VUndefined VUndefined]).
  destruct (bare_descriptor h k K) as (V & Gp & Gc). fold h1 in V, Gp, Gc.
  assert (P : parsePathObject (reference k) h = Ok (VRef (length h), h1)).
  { unfold reference. rewrite (parse_compact h k None None K); [reflexivity |].
    intros b [=]. }
  unfold bind at 1. unfold bind at 1. unfold bind at 1. rewrite P.
  unfold bind at 1. unfold resolve at 1.
  rewrite Gp. unfold or_else. cbn [truthy].
  apply andb_prop in K as [Kne _]. rewrite Kne.
  unfold h1 at 1. rewrite (resolve_missing h d dprops k _ A D M I). fold h1.
  unfold bind at 1.
  rewrite (tmr_undefined host F _ (VRef d) h1 V).
  now rewrite (valid_subject h1 _ V), Gp.
Qed.

(** X11: one entry of a mapping that references a key missing from the
    data, which is a key that the data map does not own and that is none
    of the names of [Object.prototype], makes the whole [fill] throw the
    not-accessible error for that key, after the entries before it have
    been resolved; no partial result is returned. *)
Theorem fill_mapping_aborts
  (host : Host) n l d dprops es key k rest cp (h : heap) :
  h !! l = Some (OObject (map reference_entry es ++ (key, reference k) :: rest)) ->
  isValidPathObject h (VRef l) = false ->
  h !! d = Some (OObject dprops) ->
  forallb (fun e => resolvable dprops (snd e)) es = true ->
  path_field k = true ->
  avoids ["."%char] k = true ->
  assoc k dprops = None ->
  existsb (String.eqb k) object_prototype_names = false ->
  fill host (S n) (VRef l) (VRef d) [] cp h = Throw (NotAccessible (VStr k)).
Proof.
  intros A V D R K Av M I.
  set (h1 := h ++ [OObject []]).
  destruct (fill_entries_references host (fill host n) d dprops es cp h1
              (lookup_app_l_Some _ _ _ _ D) R) as (x & E).
  rewrite (fill_root host n (VRef l) (VRef d) [] cp h (VRef (length h)) h1 VUndefined).
  - unfold bind at 1.
    rewrite (tmr_invalid host _ _ _ _ _ (empty_object_invalid h)).
    cbn [isReferenceable NOT_REFERENCEABLE]. fold h1.
    cbn [typeof isArray entries].
    rewrite (lookup_app_l_Some _ _ _ _ A : h1 !! l = _). cbn [jstype_eqb].
    unfold bind. rewrite fill_entries_app, E.
    rewrite (fill_entries_missing host _ d dprops key k rest cp (h1 ++ x)); auto.
    apply lookup_app_l_Some, lookup_app_l_Some, D.
  - unfold walkable. simpl. now rewrite A.
  - unfold parsePathObject. now rewrite V.
  - unfold h1. now rewrite get_fresh.
Qed.

Lemma fill_mapping_aborts_witness :
  let h := [OObject [("x", VInt 5)];
            OObject (map reference_entry [("a", "x")]
                       ++ ("b", reference "y") :: [("c", VNull)])] in
  h !! 1%nat
  = Some (OObject (map reference_entry [("a", "x")]
                     ++ ("b", reference "y") :: [("c", VNull)])) /\
  isValidPathObject h (VRef 1) = false /\
  h !! 0%nat = Some (OObject [("x", VInt 5)]) /\
  forallb (fun e => resolvable [("x", VInt 5)] (snd e)) [("a", "x")] = true /\
  path_field "y" = true /\
  avoids ["."%char] "y" = true /\
  assoc "y" [("x", VInt 5)] = None /\
  existsb (String.eqb "y") object_prototype_names = false /\
  fill Demo.host 1 (VRef 1) (VRef 0) [] [] h = Throw (NotAccessible (VStr "y")).
Proof.
  cbv zeta. do 8 (split; [reflexivity |]).
  apply (fill_mapping_aborts Demo.host 0 1 0 [("x", VInt 5)] [("a", "x")]
           "b" "y" [("c", VNull)] []); reflexivity.
Defined.

(** ** Paths are compared as joined strings *)

Lemma join_snoc sep xs y :
  xs <> [] ->
  Str.join sep (xs ++ [y]) = (Str.join sep xs ++ sep ++ y)%string.
Proof.
  induction xs as [| x xs IH]; [congruence |]. intros _.
  destruct xs as [| x' xs].
  - reflexivity.
  - change (Str.join sep ((x :: x' :: xs) ++ [y]))
      with (x ++ sep ++ Str.join sep ((x' :: xs) ++ [y]))%string.
    rewrite IH by discriminate.
    change (Str.join sep (x :: x' :: xs))
      with (x ++ sep ++ Str.join sep (x' :: xs))%string.
    now rewrite !append_assoc.
Qed.

Lemma joined_key_pair cp a b :
  Str.join "." (map segment_string (push (push cp (Key a)) (Key b)))
  = Str.join "." (map segment_string (push cp (Key (a ++ "." ++ b)))).
Proof.
  unfold push. rewrite !map_app. cbn [map segment_string].
  destruct (map segment_string cp) as [| x xs] eqn:E.
  - reflexivity.
  - rewrite (join_snoc "." ((x :: xs) ++ [a]) b)
      by (destruct xs; discriminate).
    rewrite !(join_snoc "." (x :: xs)) by discriminate.
    now rewrite !append_assoc.
Qed.

(** X12: the ignored paths are compared with the dot-joined current
    path, so the test cannot tell a key [a.b] from the key [b] below the key
    [a], nor the index [i] of an array from the key spelled [i]. *)
Theorem isIgnored_cannot_tell_apart (ign : list value) (cp : list segment) :
  (forall a b,
     isIgnored ign (push (push cp (Key a)) (Key b))
     = isIgnored ign (push cp (Key (a ++ "." ++ b))))
  /\ (forall i,
        isIgnored ign (push cp (Idx i))
        = isIgnored ign (push cp (Key (Str.of_nat i)))).
Proof.
  split.
  - intros a b. unfold isIgnored. now rewrite joined_key_pair.
  - intros i. unfold isIgnored, push. now rewrite !map_app.
Qed.

(** ** Bare references, along any dot path *)

Lemma closed_lookup (h : heap) l o :
  closed h = true -> h !! l = Some o -> closed_object h o = true.
Proof.
  unfold closed. rewrite forallb_forall. intros C E. apply C.
  apply list_elem_of_In. eapply list_elem_of_lookup_2, E.
Qed.

Lemma assoc_bound h k props v :
  forallb (fun e => bound h (snd e)) props = true ->
  assoc k props = Some v -> bound h v = true.
Proof.
  induction props as [| [k' v'] props IH]; simpl; [discriminate |].
  intros B. apply andb_prop in B as [B1 B2].
  destruct (String.eqb k k'); [now intros [= <-] | now apply IH].
Qed.

Lemma elems_bound h i (elems : list value) v :
  forallb (bound h) elems = true -> elems !! i = Some v -> bound h v = true.
Proof.
  rewrite forallb_forall. intros B E. apply B.
  apply list_elem_of_In. eapply list_elem_of_lookup_2, E.
Qed.

Lemma get_bound h v k :
  closed h = true -> bound h (get h v k) = true.
Proof.
  intros C. destruct v as [| | b | m | s | l]; try reflexivity.
  - simpl. destruct (String.eqb k "length"); [reflexivity |].
    destruct (index_of_key k) as [i |]; [| reflexivity].
    unfold char_at. now destruct (String.get i s).
  - unfold get. destruct (h !! l) as [[elems | props | f] |] eqn:E;
      try reflexivity.
    + pose proof (closed_lookup h l _ C E) as B. simpl in B.
      destruct (String.eqb k "length"); [reflexivity |].
      destruct (index_of_key k) as [i |]; [| reflexivity].
      destruct (elems !! i) as [v |] eqn:Ev; [| reflexivity].
      exact (elems_bound h i elems v B Ev).
    + pose proof (closed_lookup h l _ C E) as B. simpl in B.
      destruct (assoc k props) as [v |] eqn:Ev; [| reflexivity].
      exact (assoc_bound h k props v B Ev).
    + now destruct (String.eqb k "length").
Qed.

Lemma get_ext (h x : heap) v k :
  bound h v = true -> get (h ++ x) v k = get h v k.
Proof.
  destruct v as [| | b | m | s | l]; try reflexivity.
  simpl. intros B. apply Nat.ltb_lt in B. unfold get.
  now rewrite lookup_app_l.
Qed.

Lemma isCallable_ext (h x : heap) v :
  bound h v = true -> isCallable (h ++ x) v = isCallable h v.
Proof.
  destruct v as [| | b | m | s | l]; try reflexivity.
  simpl. intros B. apply Nat.ltb_lt in B. unfold isCallable, typeof.
  now rewrite lookup_app_l.
Qed.

Lemma own_ext (h x : heap) v k :
  bound h v = true -> own (h ++ x) v k = own h v k.
Proof.
  destruct v as [| | b | m | s | l]; try reflexivity.
  simpl. intros B. apply Nat.ltb_lt in B. unfold own.
  now rewrite lookup_app_l.
Qed.

Lemma read_ext (h x : heap) v k :
  bound h v = true -> read (h ++ x) v k = read h v k.
Proof.
  intros B. unfold read. rewrite (own_ext h x v k B).
  destruct v as [| | b | m | s | l]; try reflexivity.
  simpl in B. apply Nat.ltb_lt in B. unfold may_inherit.
  now rewrite lookup_app_l.
Qed.

Lemma own_get h v k r : own h v k = Some r -> get h v k = r.
Proof.
  destruct v as [| | b | m | s | l]; try discriminate; unfold own, get.
  - destruct (String.eqb k "length"); [now intros [= <-] |].
    destruct (index_of_key k) as [i |]; [| discriminate].
    unfold char_at. destruct (String.get i s); [now intros [= <-] | discriminate].
  - destruct (h !! l) as [[elems | props | f] |]; try discriminate.
    + destruct (String.eqb k "length"); [now intros [= <-] |].
      destruct (index_of_key k) as [i |]; [| discriminate].
      now intros ->.
    + now intros ->.
    + destruct (String.eqb k "length"); [now intros [= <-] | discriminate].
Qed.

Lemma read_bound h v k r :
  closed h = true -> read h v k = Some r -> bound h r = true.
Proof.
  intros C. unfold read. destruct (own h v k) as [o |] eqn:O.
  - intros [= <-]. rewrite <- (own_get h v k o O). now apply get_bound.
  - destruct (may_inherit h v k); [discriminate | now intros [= <-]].
Qed.

(** An option of a value that is bound when it is there. *)
Lemma descend_ext (h x : heap) ks : forall acc,
  closed h = true ->
  (forall v, acc = Some v -> bound h v = true) ->
  fold_left (descend (h ++ x)) ks acc = fold_left (descend h) ks acc /\
  (forall r, fold_left (descend h) ks acc = Some r -> bound h r = true).
Proof.
  induction ks as [| k ks IH]; intros acc C B; [now split |].
  cbn [fold_left].
  assert (E : descend (h ++ x) acc k = descend h acc k).
  { unfold descend. destruct acc as [v |]; [| reflexivity].
    destruct (truthy v); [apply read_ext; now apply B | reflexivity]. }
  rewrite E. apply IH; [exact C |].
  unfold descend. destruct acc as [v |]; [| discriminate].
  destruct (truthy v).
  - intros r. now apply read_bound.
  - now intros r [= <-].
Qed.

Lemma resolve_ext (h x : heap) p data :
  closed h = true -> bound h data = true ->
  tryResolveDotPath (h ++ x) (VStr p) data = tryResolveDotPath h (VStr p) data /\
  (forall r, tryResolveDotPath h (VStr p) data = Some r -> bound h r = true).
Proof.
  intros C B. rewrite !resolve_fold. apply descend_ext; [exact C |].
  now intros v [= <-].
Qed.

Lemma thenable_ext (h x : heap) v :
  closed h = true -> bound h v = true ->
  thenable (h ++ x) v = thenable h v.
Proof.
  intros C B. unfold thenable. rewrite (get_ext h x v "then" B).
  pose proof (get_bound h v "then" C) as Bt.
  destruct (get h v "then") as [| | b | m | s | t]; try reflexivity.
  simpl in Bt. apply Nat.ltb_lt in Bt. unfold callable_of.
  now rewrite lookup_app_l.
Qed.

(** X13: [fill] on the bare reference [{p}], for any dot path [p] that
    resolves to a defined value in the data: a function is invoked, and a
    class instantiated, with no arguments; a value that is not callable
    is awaited, so that it is returned as it is unless it is a thenable,
    which is adopted. *)
Theorem fill_bare_reference (host : Host) n p data ign cp (h : heap) v :
  closed h = true ->
  bound h data = true ->
  path_field p = true ->
  tryResolveDotPath h (VStr p) data = Some v ->
  is_undefined v = false ->
  let h1 := h ++ [descriptor (VStr p) VUndefined VUndefined] in
  fill host (S n) (reference p) data ign cp h
  = if isCallable h v
    then (if isFunction h v then call_target host v [] h1
          else new_target host v [] h1)
    else match thenable h v with
         | Some f => adopt host f v h1
         | None => Ok (v, h1)
         end.
Proof.
  intros C B K Rv U h1.
  destruct (bare_descriptor h p K) as (V & Gp & Gc). fold h1 in V, Gp, Gc.
  assert (P : parsePathObject (reference p) h = Ok (VRef (length h), h1)).
  { unfold reference. rewrite (parse_compact h p None None K); [reflexivity |].
    intros b [=]. }
  destruct (resolve_ext h [descriptor (VStr p) VUndefined VUndefined] p data C B)
    as [R Bv]. fold h1 in R. rewrite Rv in R. specialize (Bv v Rv).
  assert (R1 : tryResolveDotPath h1 (get h1 (VRef (length h)) "path") data
               = Some v)
    by (now rewrite Gp).
  pose proof (isCallable_ext h [descriptor (VStr p) VUndefined VUndefined] v Bv)
    as Ce. fold h1 in Ce.
  destruct (isCallable h v) eqn:Cv.
  - rewrite (fill_invoked host n _ data ign cp h _ h1 v P V R1 Ce).
    + assert (Nn : nested (VRef (length h)) h1 = false).
      { unfold nested, h1, descriptor. rewrite !get_fresh. reflexivity. }
      rewrite Nn. unfold bind, ret, invoke_target, accessor.
      assert (F1 : isFunction h1 v = isFunction h v).
      { unfold isFunction, getOwnPropertyNames.
        destruct v as [| | b | m | s | l]; try reflexivity.
        simpl in Bv. apply Nat.ltb_lt in Bv. unfold h1.
        now rewrite lookup_app_l. }
      rewrite F1.
      assert (A : arguments (VRef (length h)) h1 = Ok ([], h1)).
      { unfold arguments, h1, descriptor. rewrite get_fresh. reflexivity. }
      destruct (isFunction h v); unfold bind; rewrite A; reflexivity.
    + apply pes_call_unset; assumption.
    + now rewrite Gc.
  - rewrite (fill_plain_target host n _ data ign cp h _ h1 v P V R1 U Ce).
    rewrite Gc. cbn [getDef is_undefined truthy]. unfold await.
    unfold h1. now rewrite (thenable_ext h _ v C Bv).
Qed.

Lemma fill_bare_reference_witness :
  let h := [OObject [("user", VRef 1)];
            OObject [("age", VInt 27); ("getName", VRef 2)];
            OFunction Demo.inner] in
  closed h = true /\
  bound h (VRef 0) = true /\
  path_field "user.age" = true /\
  tryResolveDotPath h (VStr "user.age") (VRef 0) = Some (VInt 27) /\
  tryResolveDotPath h (VStr "user.getName") (VRef 0) = Some (VRef 2) /\
  fill Demo.host 1 (reference "user.age") (VRef 0) [] [] h
  = Ok (VInt 27, h ++ [descriptor (VStr "user.age") VUndefined VUndefined]) /\
  fill Demo.host 1 (reference "user.getName") (VRef 0) [] [] h
  = Ok (VStr "7", h ++ [descriptor (VStr "user.getName") VUndefined VUndefined]).
Proof.
  cbv zeta. do 5 (split; [reflexivity |]). split.
  - apply (fill_bare_reference Demo.host 0 "user.age" (VRef 0) [] []
             [OObject [("user", VRef 1)];
              OObject [("age", VInt 27); ("getName", VRef 2)];
              OFunction Demo.inner]
             (VInt 27)); reflexivity.
  - apply (fill_bare_reference Demo.host 0 "user.getName" (VRef 0) [] []
             [OObject [("user", VRef 1)];
              OObject [("age", VInt 27); ("getName", VRef 2)];
              OFunction Demo.inner]
             (VRef 2)); reflexivity.
Defined.

(** ** The parameters of a structured descriptor, end to end *)

(** X14: [fill] on a structured descriptor of a function whose
    [parameters] are bare references: the target is invoked (instantiated,
    when it is a class) with the values the references resolve to, and the
    caller's [parameters] array is overwritten in place with those values,
    while the descriptor object itself keeps its fields. *)
Theorem fill_overwrites_parameters
  (host : Host) n l a d fl f props dprops kf ks ign cp (h : heap) :
  h !! l = Some (OObject props) ->
  assoc "path" props = Some (VStr kf) ->
  assoc "call" props = None ->
  assoc "parameters" props = Some (VRef a) ->
  h !! a = Some (OArray (map reference ks)) ->
  ks <> [] ->
  forallb (resolvable dprops) ks = true ->
  (length ks <= S n)%nat ->
  h !! d = Some (OObject dprops) ->
  a <> d ->
  path_field kf = true ->
  avoids ["."%char] kf = true ->
  assoc kf dprops = Some (VRef fl) ->
  h !! fl = Some (OFunction f) ->
  exists h3,
    fill host (S (S (S n))) (VRef l) (VRef d) ign cp h
    = (if isFunction h (VRef fl)
       then invoke host f (map (lookup_in dprops) ks) h3
       else construct host f (map (lookup_in dprops) ks) h3) /\
    h3 !! a = Some (OArray (map (lookup_in dprops) ks)) /\
    h3 !! l = Some (OObject props).
Proof.
  intros L Pp Pc Pa A Ne R Len D Nad K Av Fk Fl.
  set (props' := set_prop "supportsNested" (VBool true) props).
  set (h1 := h ++ [OObject props']).
  set (p := VRef (length h)).
  assert (Lh : forall (x : loc) o, h !! x = Some o -> h1 !! x = Some o)
    by (intros x o E; apply lookup_app_l_Some, E).
  assert (Kne : negb (String.eqb kf EmptyString) = true)
    by (apply andb_prop in K as [K _]; exact K).
  assert (V : isValidPathObject h (VRef l) = true).
  { rewrite (valid_fields h l props L). cbv zeta. rewrite Pp, Pc, Pa.
    unfold default, id. cbn [from_option]. cbn [truthy typeof isArray].
    rewrite Kne, A. reflexivity. }
  pose proof (parse_valid h l props L V) as P. fold props' h1 p in P.
  pose proof (valid_copy h l props L V) as V1. fold props' h1 p in V1.
  assert (G : forall k, k <> "supportsNested" ->
                        get h1 p k = default VUndefined (assoc k props)).
  { intros k Nk. unfold h1, p. rewrite get_fresh. unfold props'.
    rewrite assoc_set_prop_ne by congruence. reflexivity. }
  assert (Gp : get h1 p "path" = VStr kf) by (rewrite G, Pp; [reflexivity | discriminate]).
  assert (Gc : get h1 p "call" = VUndefined) by (rewrite G, Pc; [reflexivity | discriminate]).
  assert (Ga : get h1 p "parameters" = VRef a) by (rewrite G, Pa; [reflexivity | discriminate]).
  assert (R1 : tryResolveDotPath h1 (get h1 p "path") (VRef d) = Some (VRef fl)).
  { rewrite Gp. unfold h1. now apply (resolve_own h d dprops kf). }
  assert (C1 : isCallable h1 (VRef fl) = true).
  { unfold isCallable, typeof. now rewrite (Lh _ _ Fl). }
  assert (X1 : pathObjectExpressesSymbol p (VRef fl) h1 = Ok (true, h1))
    by (apply pes_call_unset; [reflexivity | exact Gc]).
  assert (E1 : truthy (getDef (get h1 p "call") (VBool true)) = true)
    by (now rewrite Gc).
  assert (Pos : is_positive (get h1 (get h1 p "parameters") "length") = true).
  { rewrite Ga. unfold get. rewrite (Lh _ _ A).
    destruct ks; [congruence | reflexivity]. }
  destruct (parameters_walked host (S (S n)) (VRef l) (VRef d) ign cp h p h1
              (VRef fl) P V1 R1 C1 X1 E1) as [W _].
  rewrite (W V Pos), Ga. clear W.
  destruct (fill_array_references host n a d dprops ks [] h1 Nad
              (Lh _ _ A) (Lh _ _ D) R Len) as (h2 & F2 & A2 & O2).
  unfold bind at 1. rewrite F2.
  assert (Lp : (length h < length h1)%nat)
    by (unfold h1; rewrite List.length_app; simpl; lia).
  assert (La : (a < length h)%nat) by (eapply lookup_lt_Some, A).
  assert (Ll : (l < length h)%nat) by (eapply lookup_lt_Some, L).
  assert (Lf : (fl < length h)%nat) by (eapply lookup_lt_Some, Fl).
  assert (P2 : h2 !! (length h : loc) = Some (OObject props')).
  { rewrite O2 by lia. unfold h1. apply list_lookup_middle. reflexivity. }
  unfold bind at 1. unfold store_prop at 1. unfold p at 1. rewrite P2.
  set (h3 := <[(length h : loc) := OObject (set_prop "parameters" (VRef a) props')]> h2).
  assert (L2 : (length h < length h2)%nat) by (eapply lookup_lt_Some, P2).
  assert (O3 : forall (x : loc) o, (x < length h)%nat -> x <> a -> h !! x = Some o ->
                           h3 !! x = Some o).
  { intros x o Lx Nx E. unfold h3. rewrite list_lookup_insert_ne by lia.
    rewrite O2 by lia. now apply Lh. }
  assert (A3 : h3 !! a = Some (OArray (map (lookup_in dprops) ks))).
  { unfold h3. rewrite list_lookup_insert_ne by lia. exact A2. }
  assert (Fn : fl <> a) by (intros ->; rewrite A in Fl; discriminate).
  assert (Ln : l <> a) by (intros ->; rewrite A in L; discriminate).
  exists h3. split; [| split; [exact A3 | now apply O3]].
  unfold invoke_target, accessor.
  assert (F3 : isFunction h3 (VRef fl) = isFunction h (VRef fl)).
  { unfold isFunction, getOwnPropertyNames.
    now rewrite (O3 _ _ Lf Fn Fl), Fl. }
  assert (G3 : get h3 p "parameters" = VRef a).
  { unfold p, get, h3. rewrite list_lookup_insert_eq by exact L2.
    now rewrite assoc_set_prop_eq. }
  assert (Ar : arguments p h3 = Ok (map (lookup_in dprops) ks, h3)).
  { unfold arguments. cbv zeta. rewrite G3. cbn [truthy iterate].
    now rewrite A3. }
  rewrite F3. unfold bind, call_target, new_target, callable_of.
  destruct (isFunction h (VRef fl)); rewrite Ar, (O3 _ _ Lf Fn Fl); reflexivity.
Qed.

Lemma fill_overwrites_parameters_witness :
  let h := [OFunction Demo.outer;
            OObject [("n", VStr "7"); ("outer", VRef 0)];
            OArray (map reference ["n"]);
            OObject [("path", VStr "outer"); ("parameters", VRef 2)]] in
  h !! 3%nat = Some (OObject [("path", VStr "outer"); ("parameters", VRef 2)]) /\
  h !! 2%nat = Some (OArray (map reference ["n"])) /\
  forallb (resolvable [("n", VStr "7"); ("outer", VRef 0)]) ["n"] = true /\
  h !! 1%nat = Some (OObject [("n", VStr "7"); ("outer", VRef 0)]) /\
  h !! 0%nat = Some (OFunction Demo.outer) /\
  isFunction h (VRef 0) = true /\
  invoke Demo.host Demo.outer [VStr "7"] = ret (VInt 8) /\
  exists h3,
    fill Demo.host 3 (VRef 3) (VRef 1) [] [] h
    = (if isFunction h (VRef 0)
       then invoke Demo.host Demo.outer
              (map (lookup_in [("n", VStr "7"); ("outer", VRef 0)]) ["n"]) h3
       else construct Demo.host Demo.outer
              (map (lookup_in [("n", VStr "7"); ("outer", VRef 0)]) ["n"]) h3) /\
    h3 !! 2%nat
    = Some (OArray (map (lookup_in [("n", VStr "7"); ("outer", VRef 0)]) ["n"])) /\
    h3 !! 3%nat = Some (OObject [("path", VStr "outer"); ("parameters", VRef 2)]).
Proof.
  cbv zeta. do 7 (split; [reflexivity |]).
  apply (fill_overwrites_parameters Demo.host 0 3 2 1 0 Demo.outer
           [("path", VStr "outer"); ("parameters", VRef 2)]
           [("n", VStr "7"); ("outer", VRef 0)] "outer" ["n"] [] []);
    try reflexivity; try discriminate.
Defined.

(** ** [parsePathObject] only allocates *)

Lemma reify_grows : forall j (h : heap), exists x, snd (reify j h) = h ++ x.
Proof.
  fix IH 1. intros j h. destruct j as [| b | q | s | xs | ms]; simpl;
    try (exists []; now rewrite app_nil_r).
  - match goal with
    | |- context [let '(vs, h1) := ?elements xs h in _] =>
        assert (E : forall (ys : list Json.json) (g : heap),
                   exists x, snd (elements ys g) = g ++ x)
    end.
    { induction ys as [| y ys IHys]; intros g.
      - exists []. simpl. now rewrite app_nil_r.
      - simpl. destruct (IH y g) as [x1 E1].
        destruct (reify y g) as [v g1]. simpl in E1. subst g1.
        match goal with
        | |- context [let '(vs, h2) := ?t in _] =>
            destruct (IHys (g ++ x1)) as [x2 E2]; destruct t as [vs g2]
        end.
        simpl in *. subst g2. exists (x1 ++ x2). now rewrite app_assoc. }
    match goal with
    | |- context [let '(vs, h1) := ?t in _] =>
        destruct (E xs h) as [x Ex]; destruct t as [vs h1]
    end.
    simpl in *. subst h1. exists (x ++ [OArray vs]). now rewrite app_assoc.
  - match goal with
    | |- context [let '(ps, h1) := ?members ms h in _] =>
        assert (E : forall (ys : list (string * Json.json)) (g : heap),
                   exists x, snd (members ys g) = g ++ x)
    end.
    { induction ys as [| [k y] ys IHys]; intros g.
      - exists []. simpl. now rewrite app_nil_r.
      - simpl. destruct (IH y g) as [x1 E1].
        destruct (reify y g) as [v g1]. simpl in E1. subst g1.
        match goal with
        | |- context [let '(ps, h2) := ?t in _] =>
            destruct (IHys (g ++ x1)) as [x2 E2]; destruct t as [ps g2]
        end.
        simpl in *. subst g2. exists (x1 ++ x2). now rewrite app_assoc. }
    match goal with
    | |- context [let '(ps, h1) := ?t in _] =>
        destruct (E ms h) as [x Ex]; destruct t as [ps h1]
    end.
    simpl in *. subst h1. exists (x ++ [OObject (fromEntries ps)]).
    now rewrite app_assoc.
Qed.

(** X15: [parsePathObject] never changes an object that is already
    there: whenever it returns, the heap has only grown, and the result is a
    new object, allocated last. *)
Theorem parsePathObject_only_allocates (obj : value) (h : heap) p h1 :
  parsePathObject obj h = Ok (p, h1) ->
  exists x o, h1 = h ++ x ++ [OObject o] /\ p = VRef (length (h ++ x)).
Proof.
  destruct (isValidPathObject h obj) eqn:V.
  - destruct (valid_is_object h obj V) as (l & props & -> & E).
    rewrite (parse_valid h l props E V). intros [= <- <-].
    exists [], (set_prop "supportsNested" (VBool true) props).
    now rewrite app_nil_r.
  - destruct (isShortHand obj) eqn:S.
    + destruct (shorthand_is_string obj S) as [s ->].
      rewrite (parsePathObject_shorthand h s S). cbv zeta.
      assert (D : forall (g : heap) a b c p' h',
                 Ok (VRef (length g), g ++ [descriptor a b c]) = Ok (p', h') ->
                 forall x, g = h ++ x ->
                 exists x o, h' = h ++ x ++ [OObject o] /\ p' = VRef (length (h ++ x))).
      { intros g a b c p' h' [= <- <-] x ->. unfold descriptor.
        exists x. eexists. split; [now rewrite <- app_assoc | reflexivity]. }
      destruct (_ !! 1%nat) as [text |].
      * destruct (String.eqb text EmptyString).
        { intros Q. apply (D _ _ _ _ _ _ Q []). now rewrite app_nil_r. }
        unfold bind, JSON_parse, alloc.
        destruct (Json.parse text) as [j |]; [| discriminate].
        destruct (reify_grows j h) as [x Ex].
        destruct (reify j h) as [v h2]. simpl in Ex. subst h2.
        intros Q. apply (D _ _ _ _ _ _ Q x). reflexivity.
      * intros Q. apply (D _ _ _ _ _ _ Q []). now rewrite app_nil_r.
    + unfold parsePathObject. rewrite V, S. intros [= <- <-].
      exists [], []. now rewrite app_nil_r.
Qed.

Lemma parsePathObject_only_allocates_witness :
  parsePathObject (VStr "{a.b;[1,2];true}") Demo.heap_one
  = Ok (VRef 3,
        Demo.heap_one
          ++ [OArray [VInt 1; VInt 2]]
          ++ [OObject [("path", VStr "a.b"); ("parameters", VRef 2);
                       ("call", VBool true)]]) /\
  exists x o,
    Demo.heap_one
      ++ [OArray [VInt 1; VInt 2]]
      ++ [OObject [("path", VStr "a.b"); ("parameters", VRef 2);
                   ("call", VBool true)]]
    = Demo.heap_one ++ x ++ [OObject o] /\
    VRef 3 = VRef (length (Demo.heap_one ++ x)).
Proof.
  split; [reflexivity |].
  apply (parsePathObject_only_allocates (VStr "{a.b;[1,2];true}") Demo.heap_one).
  reflexivity.
Defined.

(** ** The earlier revision agrees on compact strings *)

Lemma substring_tail (a b : string) :
  substring (String.length a) (String.length b) (a ++ b) = b.
Proof.
  induction a as [| c a IH]; simpl.
  - induction b as [| c b IHb]; simpl; [reflexivity | now rewrite IHb].
  - exact IH.
Qed.

Lemma endsWith_app (a b : string) : Draft.endsWith (a ++ b) b = true.
Proof.
  unfold Draft.endsWith. rewrite StrFacts.length_app.
  apply andb_true_intro. split.
  - apply Nat.leb_le. lia.
  - replace (String.length a + String.length b - String.length b)%nat
      with (String.length a) by lia.
    rewrite substring_tail. apply String.eqb_refl.
Qed.

Lemma shorthand_brackets s :
  isShortHand (VStr s) = true -> Draft.isShortHand (VStr s) = true.
Proof.
  intros S. destruct (shorthand_shape s S) as (body & E & _ & _).
  unfold Draft.isShortHand. apply andb_true_intro. split.
  - rewrite E. unfold Draft.startsWith.
    destruct (body ++ "}")%string; reflexivity.
  - assert (E' : s = (String "{" body ++ "}")%string) by (rewrite E; reflexivity).
    rewrite E'. apply endsWith_app.
Qed.

(** X16: the bracket test of the earlier revision ([startsWith] and
    [endsWith]) accepts every value the regular expression of the current
    [isShortHand] accepts. *)
Theorem draft_accepts_shorthand (obj : value) :
  isShortHand obj = true -> Draft.isShortHand obj = true.
Proof.
  intros S. destruct (shorthand_is_string obj S) as [s ->].
  now apply shorthand_brackets.
Qed.

Lemma draft_accepts_shorthand_witness :
  isShortHand (VStr "{a.b;[1,2];true}") = true /\
  Draft.isShortHand (VStr "{a.b;[1,2];true}") = true.
Proof.
  split; [reflexivity |].
  apply (draft_accepts_shorthand (VStr "{a.b;[1,2];true}")). reflexivity.
Defined.

(** X17: on every compact string the current [isShortHand] accepts,
    the [parsePathObject] of the earlier revision and the current one build
    the same descriptor, or raise the same error. *)
Theorem draft_parses_shorthand_alike (obj : value) (h : heap) :
  isShortHand obj = true ->
  Draft.parsePathObject obj h = parsePathObject obj h.
Proof.
  intros S. destruct (shorthand_is_string obj S) as [s ->].
  unfold Draft.parsePathObject, parsePathObject.
  rewrite string_never_valid, S, (shorthand_brackets s S). reflexivity.
Qed.

Lemma draft_parses_shorthand_alike_witness :
  isShortHand (VStr "{a.b;[1,2];true}") = true /\
  Draft.parsePathObject (VStr "{a.b;[1,2];true}") Demo.heap_one
  = parsePathObject (VStr "{a.b;[1,2];true}") Demo.heap_one.
Proof.
  split; [reflexivity |].
  apply (draft_parses_shorthand_alike (VStr "{a.b;[1,2];true}") Demo.heap_one).
  reflexivity.
Defined.
